(** * One-time tokens of snap-hub: codec, lifecycle and retention sweep

    A shallow embedding of
      - [packages/server/src/auth/token-generation.ts]  (token codec),
      - [src/auth/token-verification.ts]                (store, check, redeem, stats),
      - [scripts/cleanup-expired-tokens.ts]             (retention sweep),
    over a relational store modelled with finite maps.

    Conventions.
      - A JavaScript string is the list of its UTF-16 code units.
      - A [Date] is its millisecond time stamp, an integer.
      - [new Date()], [Date.now()] and [crypto.randomBytes] read the
        environment; the value they return is an explicit argument.
      - A function that can throw returns an [Outcome]. *)

From Stdlib Require Import ZArith NArith List Lia Strings.String Strings.Ascii Strings.Byte Bool.
From Stdlib Require Import DecimalString.
From stdpp Require Import gmap list fin_maps relations.

Local Open Scope Z_scope.

(* ===================================================================== *)
(** * JavaScript values *)
(* ===================================================================== *)

(** A string, as the list of its UTF-16 code units. *)
Abbreviation JsString := (list N).

(** The JavaScript string written as an ASCII literal. *)
Definition js (s : string) : JsString :=
  List.map N_of_ascii (list_ascii_of_string s).

(** The code units below [n], in order. *)
Definition units_below (n : nat) : list N := List.map N.of_nat (seq 0 n).

(** What a [throw] carries. *)
Inductive Exn : Type :=
| Error (message : string)     (* [new Error(message)] *)
| DriverError.                 (* raised by the database driver *)

(** Completion of a call: it returns a value or throws. *)
Inductive Outcome (A : Type) : Type :=
| Returned (a : A)
| Threw (e : Exn).
Arguments Returned {A} a.
Arguments Threw {A} e.

Definition threw {A} (o : Outcome A) : Prop :=
  match o with
  | Threw _ => True
  | Returned _ => False
  end.

(* ===================================================================== *)
(** * Token codec ([token-generation.ts]) *)
(* ===================================================================== *)

Module Codec.

Inductive Encoding := base64url_encoding.
Inductive HashAlgorithm := sha256.

Record TokenGenerationConfig := {
  entropyBytes : nat;
  encoding : Encoding;
  expectedLength : nat;
  hashAlgorithm : HashAlgorithm;
  defaultExpirationMs : Z
}.

Definition DEFAULT_TOKEN_CONFIG : TokenGenerationConfig := {|
  entropyBytes := 12;
  encoding := base64url_encoding;
  expectedLength := 16;
  hashAlgorithm := sha256;
  defaultExpirationMs := 60 * 60 * 1000
|}.

(** ** [Buffer.prototype.toString('base64url')]

    RFC 4648 section 5, without padding: three octets make a 24-bit group
    that is cut into four 6-bit indices of the URL-safe alphabet. *)

Definition b64url_unit (i : N) : N :=
  (if i <? 26 then 65 + i                 (* A-Z *)
   else if i <? 52 then 97 + (i - 26)     (* a-z *)
   else if i <? 62 then 48 + (i - 52)     (* 0-9 *)
   else if i =? 62 then 45                (* - *)
   else 95)%N.                            (* _ *)

Definition sextet (group : N) (shift : N) : N :=
  b64url_unit (N.land (N.shiftr group shift) 63).

Fixpoint base64url (bytes : list byte) : JsString :=
  match bytes with
  | [] => []
  | [a] =>
      let g := N.shiftl (Byte.to_N a) 16 in
      [sextet g 18; sextet g 12]
  | [a; b] =>
      let g := N.lor (N.shiftl (Byte.to_N a) 16) (N.shiftl (Byte.to_N b) 8) in
      [sextet g 18; sextet g 12; sextet g 6]
  | a :: b :: c :: rest =>
      let g := N.lor (N.lor (N.shiftl (Byte.to_N a) 16)
                            (N.shiftl (Byte.to_N b) 8)) (Byte.to_N c) in
      sextet g 18 :: sextet g 12 :: sextet g 6 :: sextet g 0 :: base64url rest
  end.

(** A length or count inside a template literal: its decimal digits. *)
Definition decimal (n : nat) : string := NilEmpty.string_of_uint (Nat.to_uint n).

(** ** [generateOneTimeToken]

    [randomBytes] is what [crypto.randomBytes(entropyBytes)] returned. *)
Definition generateOneTimeToken (randomBytes : list byte) : Outcome JsString :=
  let token := base64url randomBytes in
  if negb (Nat.eqb (length token) (expectedLength DEFAULT_TOKEN_CONFIG))
  then Threw (Error (String.append "Generated token length "
                      (String.append (decimal (length token))
                        (String.append " does not match expected "
                           (decimal (expectedLength DEFAULT_TOKEN_CONFIG))))))
  else Returned token.

(** ** [validateTokenFormat] *)

(** The character class [[A-Za-z0-9_-]] of the pattern. *)
Definition base64url_class (c : N) : bool :=
  ((65 <=? c) && (c <=? 90)           (* A-Z *)
   || (97 <=? c) && (c <=? 122)       (* a-z *)
   || (48 <=? c) && (c <=? 57)        (* 0-9 *)
   || (c =? 95)                       (* _ *)
   || (c =? 45))%N.                   (* - *)

(** [/^[cls]+$/.test(s)]: without the [m] flag [^] and [$] match only at
    the two ends of the input, and [+] asks for at least one unit. *)
Definition test_class_plus (cls : N -> bool) (s : JsString) : bool :=
  match s with
  | [] => false
  | _ :: _ => forallb cls s
  end.

Definition validateTokenFormat (token : JsString) : bool :=
  if negb (Nat.eqb (length token) (expectedLength DEFAULT_TOKEN_CONFIG))
  then false
  else test_class_plus base64url_class token.

(** The URL-safe alphabet as the specification lists it: letters, digits,
    [-] and [_]. *)
Definition url_safe_alphabet : JsString :=
  js "ABCDEFGHIJKLMNOPQRSTUVWXYZabcdefghijklmnopqrstuvwxyz0123456789-_".

(** ** [createTokenExpiration]; [nowMs] is what [Date.now()] returned. *)
Definition createTokenExpiration (nowMs : Z) (timeoutMs : option Z) : Z :=
  let timeout := default (defaultExpirationMs DEFAULT_TOKEN_CONFIG) timeoutMs in
  nowMs + timeout.

End Codec.

(** [crypto.createHash('sha256').update(s).digest('hex')], the one
    primitive of Node's [crypto] module the lifecycle code relies on. *)
Class Sha256 := sha256_hex : JsString -> JsString.

(** ** [hashToken] *)
Definition hashToken `{Sha256} (token : JsString) : JsString :=
  sha256_hex token.

(** The record [generateTokenForUser] returns. *)
Module TokenData.
Record t := { token : JsString; hash : JsString; userId : Z; expiresAt : Z }.
End TokenData.

(** ** [generateTokenForUser] *)
Definition generateTokenForUser `{Sha256} (randomBytes : list byte) (nowMs : Z)
    (userId : Z) (expirationMs : option Z) : Outcome TokenData.t :=
  match Codec.generateOneTimeToken randomBytes with
  | Threw e => Threw e
  | Returned token =>
      let hash := hashToken token in
      let expiresAt := Codec.createTokenExpiration nowMs expirationMs in
      Returned {| TokenData.token := token; TokenData.hash := hash;
                  TokenData.userId := userId; TokenData.expiresAt := expiresAt |}
  end.

(* ===================================================================== *)
(** * The relational store ([db/schema]) *)
(* ===================================================================== *)

(** A row of [one_time_tokens]; [token_hash], the primary key, is the key
    under which the row is kept. *)
Module TokenRow.
Record t := {
  userId : Z;
  createdAt : Z;
  expiresAt : Z;
  usedAt : option Z;
  used : bool
}.
End TokenRow.

(** A row of [sessions], keyed by [session_id]. *)
Module SessionRow.
Record t := {
  userId : Z;
  createdAt : Z;
  expiresAt : Z;
  lastSeenAt : Z
}.
End SessionRow.

Record Db := {
  users : gset Z;                              (* ids of the [users] table *)
  oneTimeTokens : gmap JsString TokenRow.t;
  sessions : gmap JsString SessionRow.t
}.

Definition with_tokens (d : Db) (t : gmap JsString TokenRow.t) : Db :=
  {| users := users d; oneTimeTokens := t; sessions := sessions d |}.

Definition with_sessions (d : Db) (s : gmap JsString SessionRow.t) : Db :=
  {| users := users d; oneTimeTokens := oneTimeTokens d; sessions := s |}.

(** ** Statements over one table *)
Module Sql.
Section Table.
Context {K : Type} `{Countable K} {R : Type}.

(** The rows a [WHERE] clause keeps. *)
Definition rows_where (w : K -> R -> bool) (t : gmap K R) : gmap K R :=
  filter (fun kr => w kr.1 kr.2 = true) t.

(** [SELECT ... WHERE w] *)
Definition select (w : K -> R -> bool) (t : gmap K R) : list R :=
  (map_to_list (rows_where w t)).*2.

(** [UPDATE ... SET ... WHERE w RETURNING ...]: the rows as updated, and
    the table afterwards. *)
Definition update (w : K -> R -> bool) (set : R -> R) (t : gmap K R)
    : list R * gmap K R :=
  (set <$> select w t,
   map_imap (fun k r => Some (if w k r then set r else r)) t).

(** [DELETE ... WHERE w]: the number of rows removed, and what is left. *)
Definition delete (w : K -> R -> bool) (t : gmap K R) : nat * gmap K R :=
  (size (rows_where w t), filter (fun kr => w kr.1 kr.2 <> true) t).

(** [COUNT(CASE WHEN w THEN 1 END)] *)
Definition count (w : K -> R -> bool) (t : gmap K R) : nat :=
  size (rows_where w t).

End Table.
End Sql.

(** [INSERT INTO one_time_tokens]: the key is a [varchar(64)] primary key
    and [user_id] references [users]; a violated constraint makes the
    driver throw.  A key longer than the column is refused as a whole; the
    hexadecimal digests stored here have no trailing spaces for PostgreSQL
    to cut instead. *)
Definition insert_token (tokenHash : JsString) (row : TokenRow.t) (d : Db)
    : Outcome unit * Db :=
  if negb (Nat.leb (length tokenHash) 64) then (Threw DriverError, d)
  else if negb (bool_decide (TokenRow.userId row ∈ users d)) then (Threw DriverError, d)
  else match oneTimeTokens d !! tokenHash with
       | Some _ => (Threw DriverError, d)
       | None => (Returned tt, with_tokens d (<[tokenHash := row]> (oneTimeTokens d)))
       end.

(* ===================================================================== *)
(** * Calls against the store *)
(* ===================================================================== *)

(** The store together with the fate of the coming round trips to it:
    [true] at the head of [faults] makes the next round trip throw before
    it reaches the store (a refused or lost connection); past the end of
    the list no round trip fails.  A statement that took effect and whose
    reply was then lost is not among the faults modelled here: where a
    theorem speaks of the store after a failed round trip, the failure is
    one that kept the statement from the store. *)
Record World := { db : Db; faults : list bool }.

Definition IO (A : Type) : Type := World -> Outcome A * World.

(** No coming round trip fails. *)
Definition fault_free (fs : list bool) : Prop := Forall (fun b => b = false) fs.

Definition ret {A} (a : A) : IO A := fun w => (Returned a, w).

Definition throw {A} (e : Exn) : IO A := fun w => (Threw e, w).

Definition bind {A B} (m : IO A) (k : A -> IO B) : IO B := fun w =>
  match m w with
  | (Returned a, w') => k a w'
  | (Threw e, w') => (Threw e, w')
  end.

Notation "'await' x <- m ;; k" := (bind m (fun x => k))
  (at level 10, x name, m at level 99, k at level 200).

(** [try { body } catch (error) { handler }] *)
Definition try_catch {A} (body : IO A) (handler : Exn -> IO A) : IO A := fun w =>
  match body w with
  | (Returned a, w') => (Returned a, w')
  | (Threw e, w') => handler e w'
  end.

(** [try { body } finally { final }] *)
Definition try_finally {A} (body : IO A) (final : IO unit) : IO A := fun w =>
  match body w with
  | (o, w') =>
      match final w' with
      | (Returned _, w'') => (o, w'')
      | (Threw e, w'') => (Threw e, w'')
      end
  end.

(** One awaited statement. *)
Definition query {A} (stmt : Db -> Outcome A * Db) : IO A := fun w =>
  match faults w with
  | true :: rest => (Threw DriverError, {| db := db w; faults := rest |})
  | _ :: rest => let (o, d) := stmt (db w) in (o, {| db := d; faults := rest |})
  | [] => let (o, d) := stmt (db w) in (o, {| db := d; faults := [] |})
  end.

(* ===================================================================== *)
(** * Token lifecycle ([token-verification.ts]) *)
(* ===================================================================== *)

(** The codes of [TokenVerificationResult.error]. *)
Inductive ErrorCode : Type :=
| INVALID_FORMAT
| NOT_FOUND
| EXPIRED
| ALREADY_USED
| DATABASE_ERROR.

(** The string literal each code is in the source. *)
Definition error_literal (e : ErrorCode) : string :=
  match e with
  | INVALID_FORMAT => "INVALID_FORMAT"
  | NOT_FOUND => "NOT_FOUND"
  | EXPIRED => "EXPIRED"
  | ALREADY_USED => "ALREADY_USED"
  | DATABASE_ERROR => "DATABASE_ERROR"
  end.

(** The literals of the source's union type. *)
Definition source_error_codes : list string :=
  ["INVALID_FORMAT"; "NOT_FOUND"; "EXPIRED"; "ALREADY_USED"; "DATABASE_ERROR"]%string.

(** The error taxonomy as the specification names it. *)
Definition spec_error_codes : list string :=
  ["INVALID_FORMAT"; "NOT_FOUND"; "EXPIRED"; "ALREADY_USED"; "STORAGE_ERROR"]%string.

Module Result.
Record t := {
  success : bool;
  userId : option Z;
  error : option ErrorCode;
  message : option string
}.
End Result.
Abbreviation TokenVerificationResult := Result.t.

Definition failed (e : ErrorCode) (msg : string) : TokenVerificationResult :=
  {| Result.success := false; Result.userId := None;
     Result.error := Some e; Result.message := Some msg |}.

Definition succeeded (userId : Z) : TokenVerificationResult :=
  {| Result.success := true; Result.userId := Some userId;
     Result.error := None; Result.message := None |}.

(** [createDatabaseClient()] only builds a lazy client: nothing is sent
    until a statement is awaited, so it is left out. *)

(** The [WHERE] clause of the consuming update. *)
Definition consumable (tokenHash : JsString) (now : Z)
    (k : JsString) (r : TokenRow.t) : bool :=
  bool_decide (k = tokenHash)             (* eq(tokenHash, tokenHash) *)
  && bool_decide (TokenRow.used r = false)  (* eq(used, false) *)
  && (now <? TokenRow.expiresAt r).         (* gt(expiresAt, now) *)

(** The row is unused and unexpired at [now]: what the update asks of the
    row it finds under the key. *)
Definition redeemable (now : Z) (r : TokenRow.t) : bool :=
  bool_decide (TokenRow.used r = false) && (now <? TokenRow.expiresAt r).

(** The [SET] clause of the consuming update. *)
Definition consume (now : Z) (r : TokenRow.t) : TokenRow.t :=
  {| TokenRow.userId := TokenRow.userId r;
     TokenRow.createdAt := TokenRow.createdAt r;
     TokenRow.expiresAt := TokenRow.expiresAt r;
     TokenRow.usedAt := Some now;
     TokenRow.used := true |}.

(** [db.update(oneTimeTokens).set(...).where(...).returning(...)] *)
Definition update_consume (tokenHash : JsString) (now : Z) (d : Db)
    : Outcome (list TokenRow.t) * Db :=
  let (rows, t) := Sql.update (consumable tokenHash now) (consume now) (oneTimeTokens d) in
  (Returned rows, with_tokens d t).

(** [db.select(...).from(oneTimeTokens).where(eq(tokenHash, tokenHash)).limit(1)] *)
Definition select_by_hash (tokenHash : JsString) (d : Db)
    : Outcome (list TokenRow.t) * Db :=
  (Returned (take 1 (Sql.select (fun k _ => bool_decide (k = tokenHash)) (oneTimeTokens d))), d).

Section Lifecycle.
Context `{Sha256}.

(** ** [verifyAndConsumeToken]; [now] is what [new Date()] returned. *)
Definition verifyAndConsumeToken (now : Z) (token : JsString)
    : IO TokenVerificationResult :=
  if negb (Codec.validateTokenFormat token) then
    ret (failed INVALID_FORMAT "Token must be 16 characters of base64url format")
  else
    let tokenHash := hashToken token in
    try_catch
      (await result <- query (update_consume tokenHash now) ;;
       match result with
       | [] =>
           await existingToken <- query (select_by_hash tokenHash) ;;
           match existingToken with
           | [] => ret (failed NOT_FOUND "Token not found or invalid")
           | tokenRecord :: _ =>
               if TokenRow.used tokenRecord then
                 ret (failed ALREADY_USED "Token has already been used")
               else if TokenRow.expiresAt tokenRecord <=? now then
                 ret (failed EXPIRED "Token has expired")
               else
                 ret (failed DATABASE_ERROR "Token verification failed for unknown reason")
           end
       | consumedToken :: _ => ret (succeeded (TokenRow.userId consumedToken))
       end)
      (fun _ => ret (failed DATABASE_ERROR "Database error during token verification")).

(** ** [checkTokenValidity] *)
Definition checkTokenValidity (now : Z) (token : JsString)
    : IO TokenVerificationResult :=
  if negb (Codec.validateTokenFormat token) then
    ret (failed INVALID_FORMAT "Token must be 16 characters of base64url format")
  else
    let tokenHash := hashToken token in
    try_catch
      (await result <- query (select_by_hash tokenHash) ;;
       match result with
       | [] => ret (failed NOT_FOUND "Token not found or invalid")
       | tokenRecord :: _ =>
           if TokenRow.used tokenRecord then
             ret (failed ALREADY_USED "Token has already been used")
           else if TokenRow.expiresAt tokenRecord <=? now then
             ret (failed EXPIRED "Token has expired")
           else
             ret (succeeded (TokenRow.userId tokenRecord))
       end)
      (fun _ => ret (failed DATABASE_ERROR "Database error during token validity check")).

End Lifecycle.

(** ** [storeToken]; [dbNow] is the store's clock, for [created_at]'s
    [defaultNow()]. *)
Definition storeToken (dbNow : Z) (tokenHash : JsString) (userId : Z) (expiresAt : Z)
    : IO bool :=
  try_catch
    (await _u <- query (insert_token tokenHash
                   {| TokenRow.userId := userId; TokenRow.createdAt := dbNow;
                      TokenRow.expiresAt := expiresAt;
                      TokenRow.usedAt := None; TokenRow.used := false |}) ;;
     ret true)
    (fun _ => ret false).

(** The row [storeToken] writes. *)
Definition fresh_row (dbNow userId expiresAt : Z) : TokenRow.t :=
  {| TokenRow.userId := userId; TokenRow.createdAt := dbNow;
     TokenRow.expiresAt := expiresAt;
     TokenRow.usedAt := None; TokenRow.used := false |}.

(** ** [getTokenStats] *)
Module Stats.
Record t := { total : Z; used : Z; expired : Z; active : Z }.
End Stats.

(** The aggregate query; without [GROUP BY] it answers with one row.
    [dbNow] is the store's [CURRENT_TIMESTAMP].  The counts travel as
    text ([::text]) and come back through [parseInt(_, 10)]. *)
Definition select_stats (dbNow : Z) (userId : Z) (d : Db)
    : Outcome (list Stats.t) * Db :=
  let mine := Sql.rows_where (fun _ r => TokenRow.userId r =? userId) (oneTimeTokens d) in
  (Returned
     [ {| Stats.total := Z.of_nat (size mine);
          Stats.used := Z.of_nat (Sql.count (fun _ r => TokenRow.used r) mine);
          Stats.expired := Z.of_nat (Sql.count (fun _ r =>
              (TokenRow.expiresAt r <=? dbNow) && negb (TokenRow.used r)) mine);
          Stats.active := Z.of_nat (Sql.count (fun _ r =>
              (dbNow <? TokenRow.expiresAt r) && negb (TokenRow.used r)) mine) |} ],
   d).

Definition getTokenStats (dbNow : Z) (userId : Z) : IO Stats.t :=
  try_catch
    (await rawStats <- query (select_stats dbNow userId) ;;
     let raw := match rawStats with
                | r :: _ => r
                | [] => {| Stats.total := 0; Stats.used := 0;
                           Stats.expired := 0; Stats.active := 0 |}
                end in
     ret {| Stats.total := Stats.total raw; Stats.used := Stats.used raw;
            Stats.expired := Stats.expired raw; Stats.active := Stats.active raw |})
    (fun _ => ret {| Stats.total := 0; Stats.used := 0;
                     Stats.expired := 0; Stats.active := 0 |}).

(* ===================================================================== *)
(** * Retention sweep ([cleanup-expired-tokens.ts]) *)
(* ===================================================================== *)

Module Cleanup.
Record t := { expiredTokens : nat; expiredSessions : nat; oldUsedTokens : nat }.
End Cleanup.

(** What an awaited [delete] resolves to with the postgres-js driver: the
    (empty) list of returned rows, carrying the number of deleted rows as
    [count]. *)
Record DeleteResult := { count : nat }.

(** [result.rowCount]: the result has no such property. *)
Definition rowCount (_ : DeleteResult) : option nat := None.

Definition delete_tokens (w : JsString -> TokenRow.t -> bool) (d : Db)
    : Outcome DeleteResult * Db :=
  let (n, t) := Sql.delete w (oneTimeTokens d) in
  (Returned {| count := n |}, with_tokens d t).

Definition delete_sessions (w : JsString -> SessionRow.t -> bool) (d : Db)
    : Outcome DeleteResult * Db :=
  let (n, s) := Sql.delete w (sessions d) in
  (Returned {| count := n |}, with_sessions d s).

(** [usedAt IS NOT NULL AND usedAt < thirtyDaysAgo] *)
Definition old_used (thirtyDaysAgo : Z) (_ : JsString) (r : TokenRow.t) : bool :=
  match TokenRow.usedAt r with
  | Some u => u <? thirtyDaysAgo
  | None => false
  end.

(** [await client.end()] *)
Definition client_end : IO unit := ret tt.

(** [rowCount || 0] *)
Definition or_zero (n : option nat) : nat :=
  match n with
  | Some (S k) => S k
  | _ => 0%nat
  end.

Definition cleanupExpiredTokensAndSessions (now : Z) : IO Cleanup.t :=
  try_finally
    (try_catch
       (await expiredTokensResult <-
          query (delete_tokens (fun _ r => TokenRow.expiresAt r <? now)) ;;
        await expiredSessionsResult <-
          query (delete_sessions (fun _ s => SessionRow.expiresAt s <? now)) ;;
        let thirtyDaysAgo := now - 30 * 24 * 60 * 60 * 1000 in
        await oldUsedTokensResult <-
          query (delete_tokens (old_used thirtyDaysAgo)) ;;
        ret {| Cleanup.expiredTokens := or_zero (rowCount expiredTokensResult);
               Cleanup.expiredSessions := or_zero (rowCount expiredSessionsResult);
               Cleanup.oldUsedTokens := or_zero (rowCount oldUsedTokensResult) |})
       (fun error => throw error))
    client_end.

(** ** The scheduled runs ([setupCleanupJobs])

    The [onTick] callbacks of [dailyCleanupJob] and of
    [hourlySessionCleanupJob]: each awaits one sweep inside its own
    [try]/[catch], and only logs. *)
Definition dailyCleanupJob_onTick (now : Z) : IO unit :=
  try_catch
    (await _stats <- cleanupExpiredTokensAndSessions now ;;
     ret tt)
    (fun _ => ret tt).

Definition hourlySessionCleanupJob_onTick (now : Z) : IO unit :=
  try_catch
    (await stats <- cleanupExpiredTokensAndSessions now ;;
     if (0 <? Cleanup.expiredSessions stats)%nat then ret tt else ret tt)
    (fun _ => ret tt).

(** The [WHERE] clauses of the three passes. *)
Definition token_expired (now : Z) (_ : JsString) (r : TokenRow.t) : bool :=
  TokenRow.expiresAt r <? now.

Definition session_expired (now : Z) (_ : JsString) (s : SessionRow.t) : bool :=
  SessionRow.expiresAt s <? now.

Definition thirty_days : Z := 30 * 24 * 60 * 60 * 1000.

(* ===================================================================== *)
(** * Concurrent redemption *)
(* ===================================================================== *)

(** Several calls of [verifyAndConsumeToken] on one raw token, run by the
    event loop against one store.  A call runs without interruption up to
    its next [await]; each awaited statement is one atomic step of the
    store.  Steps of different calls, and the passing of time, interleave
    in any order. *)
Module Concurrent.

(** Where a call stands. *)
Inductive Call : Type :=
| Pending                         (* not called yet *)
| Updating (now : Z)              (* awaiting the conditional update *)
| Diagnosing (now : Z)            (* no row came back; awaiting the select *)
| Settled (r : TokenVerificationResult).

Record System := { clock : Z; store : Db; calls : list Call }.

Section Race.
Context `{Sha256}.
Variable token : JsString.

(** The next step of a call, when the store and the clock are as given;
    [fault] tells whether the awaited round trip throws. *)
Definition advance (fault : bool) (clk : Z) (c : Call) (d : Db) : option (Call * Db) :=
  match c with
  | Pending =>
      if negb (Codec.validateTokenFormat token) then
        Some (Settled (failed INVALID_FORMAT "Token must be 16 characters of base64url format"), d)
      else Some (Updating clk, d)
  | Updating now =>
      if fault then
        Some (Settled (failed DATABASE_ERROR "Database error during token verification"), d)
      else
        match update_consume (hashToken token) now d with
        | (Returned [], d') => Some (Diagnosing now, d')
        | (Returned (consumedToken :: _), d') =>
            Some (Settled (succeeded (TokenRow.userId consumedToken)), d')
        | (Threw _, d') =>
            Some (Settled (failed DATABASE_ERROR "Database error during token verification"), d')
        end
  | Diagnosing now =>
      if fault then
        Some (Settled (failed DATABASE_ERROR "Database error during token verification"), d)
      else
        match select_by_hash (hashToken token) d with
        | (Returned [], d') =>
            Some (Settled (failed NOT_FOUND "Token not found or invalid"), d')
        | (Returned (tokenRecord :: _), d') =>
            if TokenRow.used tokenRecord then
              Some (Settled (failed ALREADY_USED "Token has already been used"), d')
            else if TokenRow.expiresAt tokenRecord <=? now then
              Some (Settled (failed EXPIRED "Token has expired"), d')
            else
              Some (Settled (failed DATABASE_ERROR "Token verification failed for unknown reason"), d')
        | (Threw _, d') =>
            Some (Settled (failed DATABASE_ERROR "Database error during token verification"), d')
        end
  | Settled _ => None
  end.

Inductive step : System -> System -> Prop :=
| step_tick s dt :
    0 <= dt ->
    step s {| clock := clock s + dt; store := store s; calls := calls s |}
| step_call s i fault c c' d' :
    calls s !! i = Some c ->
    advance fault (clock s) c (store s) = Some (c', d') ->
    step s {| clock := clock s; store := d'; calls := <[i := c']> (calls s) |}.

(** A schedule, and the run it describes. *)
Inductive Event : Type :=
| Tick (dt : Z)
| Advance (i : nat) (fault : bool).

Definition fire (ev : Event) (s : System) : option System :=
  match ev with
  | Tick dt =>
      if 0 <=? dt
      then Some {| clock := clock s + dt; store := store s; calls := calls s |}
      else None
  | Advance i fault =>
      match calls s !! i with
      | Some c =>
          match advance fault (clock s) c (store s) with
          | Some (c', d') =>
              Some {| clock := clock s; store := d'; calls := <[i := c']> (calls s) |}
          | None => None
          end
      | None => None
      end
  end.

Fixpoint run (evs : list Event) (s : System) : option System :=
  match evs with
  | [] => Some s
  | ev :: rest =>
      match fire ev s with
      | Some s' => run rest s'
      | None => None
      end
  end.

(** One call on its own, its round trips meeting the faults of [fs]. *)
Fixpoint solo (fuel : nat) (fs : list bool) (clk : Z) (c : Call) (d : Db)
    : Call * Db * list bool :=
  match fuel with
  | O => (c, d, fs)
  | S fuel' =>
      match c with
      | Settled _ => (c, d, fs)
      | Pending =>
          match advance false clk c d with
          | Some (c', d') => solo fuel' fs clk c' d'
          | None => (c, d, fs)
          end
      | _ =>
          match advance (List.hd false fs) clk c d with
          | Some (c', d') => solo fuel' (List.tl fs) clk c' d'
          | None => (c, d, fs)
          end
      end
  end.

End Race.

Definition won (c : Call) : bool :=
  match c with
  | Settled r => Result.success r
  | _ => false
  end.

Definition settled (c : Call) : bool :=
  match c with
  | Settled _ => true
  | _ => false
  end.

(** The number of calls that have reported success. *)
Definition successes (cs : list Call) : nat := length (List.filter won cs).

(** A call has reported the failure [e]. *)
Definition lost_with (e : ErrorCode) (c : Call) : Prop :=
  exists r, c = Settled r /\ Result.success r = false /\ Result.error r = Some e.

Section Invariant.
Context `{Sha256}.
Variable token : JsString.
Variable row0 : TokenRow.t.     (* the stored row, as it is before the race *)
Variable n : nat.               (* the number of calls *)

(** What the state of one call tells, when the clock shows [clk] and the
    row's flag is [usd]. *)
Definition call_ok (clk : Z) (usd : bool) (c : Call) : Prop :=
  match c with
  | Pending => True
  | Updating now => now <= clk
  | Diagnosing now => now <= clk /\ (usd = true \/ TokenRow.expiresAt row0 <= now)
  | Settled res =>
      if Result.success res then
        usd = true /\ res = succeeded (TokenRow.userId row0)
      else
        (Result.error res = Some ALREADY_USED /\ usd = true) \/
        (Result.error res = Some EXPIRED /\ TokenRow.expiresAt row0 <= clk) \/
        Result.error res = Some DATABASE_ERROR \/
        (Result.error res = Some INVALID_FORMAT /\ Codec.validateTokenFormat token = false)
  end.

(** The invariant of the race. *)
Definition race_inv (s : System) : Prop :=
  exists r,
    oneTimeTokens (store s) !! hashToken token = Some r /\
    TokenRow.userId r = TokenRow.userId row0 /\
    TokenRow.expiresAt r = TokenRow.expiresAt row0 /\
    successes (calls s) = (if TokenRow.used r then 1 else 0)%nat /\
    length (calls s) = n /\
    Forall (call_ok (clock s) (TokenRow.used r)) (calls s).

End Invariant.

End Concurrent.

(** Worked inputs. *)
Module Demo.

(** A stand-in for SHA-256: the text itself. *)
Definition plain_digest : Sha256 := fun s => s.

Definition token : JsString := js "AbC123dEf456GhI7".

(** One user, no token, no session, and a store that answers. *)
Definition world0 : World :=
  {| db := {| users := {[ 7 ]}; oneTimeTokens := ∅; sessions := ∅ |};
     faults := [false; false; false; false] |}.

(** After [storeToken] of [token] for user 7 at time 1000, expiring at 5000. *)
Definition world1 : World :=
  (storeToken 1000 (hashToken (H := plain_digest) token) 7 5000 world0).2.

(** [world1] once [token] has been redeemed at time 2000. *)
Definition world2 : World :=
  (verifyAndConsumeToken (H := plain_digest) 2000 token world1).2.

(** [world1] with the connection to the store lost. *)
Definition world1_down : World := {| db := db world1; faults := [true] |}.

Definition random12 : list byte := list_byte_of_string "hello world!".

(** What [generateTokenForUser random12 1000 7 undefined] returns. *)
Definition issued : TokenData.t :=
  {| TokenData.token := js "aGVsbG8gd29ybGQh";
     TokenData.hash := hashToken (H := plain_digest) (js "aGVsbG8gd29ybGQh");
     TokenData.userId := 7;
     TokenData.expiresAt := 3601000 |}.

(** A store with a session that expired at 1000, a token used at 1000 that
    expires at 4000000000, and a token that expired unused at 2000; the first
    round trip to it is going to fail. *)
Definition stale_world : World :=
  {| db := {| users := {[ 7 ]};
              oneTimeTokens :=
                {[ js "old" := {| TokenRow.userId := 7; TokenRow.createdAt := 500;
                                  TokenRow.expiresAt := 4000000000;
                                  TokenRow.usedAt := Some 1000; TokenRow.used := true |};
                   js "gone" := {| TokenRow.userId := 7; TokenRow.createdAt := 500;
                                   TokenRow.expiresAt := 2000;
                                   TokenRow.usedAt := None; TokenRow.used := false |} ]};
              sessions :=
                {[ js "s1" := {| SessionRow.userId := 7; SessionRow.createdAt := 500;
                                 SessionRow.expiresAt := 1000;
                                 SessionRow.lastSeenAt := 600 |} ]} |};
     faults := [true; false; false] |}.

(** Two calls race for the token of [world1]: both are made, time
    passes, the second call's update is served first, then the first call's
    update and its diagnostic read. *)
Definition race_schedule : list Concurrent.Event :=
  [Concurrent.Advance 0 false; Concurrent.Advance 1 false; Concurrent.Tick 5;
   Concurrent.Advance 1 false; Concurrent.Advance 0 false;
   Concurrent.Advance 0 false].

Definition race_start : Concurrent.System :=
  {| Concurrent.clock := 2000;
     Concurrent.store := db world1;
     Concurrent.calls := replicate 2 Concurrent.Pending |}.

Definition race_end : Concurrent.System :=
  {| Concurrent.clock := 2005;
     Concurrent.store :=
       with_tokens (db world1)
         (<[ hashToken (H := plain_digest) token :=
               consume 2000 (fresh_row 1000 7 5000) ]>
            (oneTimeTokens (db world1)));
     Concurrent.calls :=
       [Concurrent.Settled (failed ALREADY_USED "Token has already been used");
        Concurrent.Settled (succeeded 7)] |}.

End Demo.


(* ===================================================================== *)
(** * [verifyTokenHash] and the buffers it compares *)
(* ===================================================================== *)

Module Hex.

(** The value of a hexadecimal digit, in either letter case. *)
Definition hex_value (c : N) : option N :=
  (if (48 <=? c) && (c <=? 57) then Some (c - 48)          (* 0-9 *)
   else if (97 <=? c) && (c <=? 102) then Some (c - 87)    (* a-f *)
   else if (65 <=? c) && (c <=? 70) then Some (c - 55)     (* A-F *)
   else None)%N.

Definition byte_of_nibbles (hi lo : N) : byte :=
  match Byte.of_N (16 * hi + lo) with
  | Some b => b
  | None => x00
  end.

(** [Buffer.from(s, 'hex')]: two digits make one byte; of each code unit
    the decoder reads the low byte; decoding stops at the first pair that is
    not two hexadecimal digits, and a last digit without a partner is
    dropped. *)
Fixpoint buffer_from_hex (s : JsString) : list byte :=
  match s with
  | hi :: lo :: rest =>
      match hex_value (hi mod 256), hex_value (lo mod 256) with
      | Some h, Some l => byte_of_nibbles h l :: buffer_from_hex rest
      | _, _ => []
      end
  | _ => []
  end.

(** [crypto.timingSafeEqual(a, b)]: a [RangeError] when the two buffers
    differ in length, else whether they hold the same bytes. *)
Definition timingSafeEqual (a b : list byte) : Outcome bool :=
  if negb (Nat.eqb (length a) (length b))
  then Threw (Error "Input buffers must have the same byte length")
  else Returned (if List.list_eq_dec Byte.byte_eq_dec a b then true else false).

(** A digit of a lower-case hexadecimal text, as [digest('hex')] writes. *)
Definition lower_hex_digit (c : N) : bool :=
  ((48 <=? c) && (c <=? 57) || (97 <=? c) && (c <=? 102))%N.

(** A hexadecimal digit in either case. *)
Definition hex_digit (c : N) : bool :=
  match hex_value c with
  | Some _ => true
  | None => false
  end.

(** The lower-case form of an ASCII letter. *)
Definition ascii_lower (c : N) : N :=
  (if (65 <=? c) && (c <=? 90) then c + 32 else c)%N.

(** What [digest('hex')] of SHA-256 always is: 64 lower-case digits. *)
Definition is_sha256_hex (s : JsString) : Prop :=
  length s = 64%nat /\ forallb lower_hex_digit s = true.

End Hex.

(** ** [verifyTokenHash] *)
Definition verifyTokenHash `{Sha256} (token storedHash : JsString) : Outcome bool :=
  let tokenHash := hashToken token in
  Hex.timingSafeEqual (Hex.buffer_from_hex tokenHash) (Hex.buffer_from_hex storedHash).

(** A stand-in for SHA-256 that writes 64 lower-case hexadecimal digits:
    the low bytes of the text in hexadecimal, cut or zero-filled to 64. *)
Module HexDemo.

Definition nibble_digit (n : N) : N :=
  (if n <? 10 then 48 + n else 87 + n)%N.

Definition hex_of_text (s : JsString) : JsString :=
  flat_map (fun c => [nibble_digit ((c / 16) mod 16); nibble_digit (c mod 16)]) s.

Definition hex_digest : Sha256 :=
  fun s => take 64 (hex_of_text s ++ replicate 64 48%N).

End HexDemo.

(* ===================================================================== *)
(** * What the store keeps *)
(* ===================================================================== *)

(** The two fields a redemption writes agree: [used] is set exactly when
    [usedAt] is. *)
Definition row_consistent (r : TokenRow.t) : Prop :=
  TokenRow.used r = true <-> TokenRow.usedAt r <> None.

Definition store_consistent (d : Db) : Prop :=
  forall k r, oneTimeTokens d !! k = Some r -> row_consistent r.

(** How the row under key [k] may differ after redemptions of the digest
    [h]: not at all, or, if it is the row of [h] and was unused, by having been
    consumed once. *)
Definition row_history (h k : JsString) (r r' : TokenRow.t) : Prop :=
  r' = r \/ (k = h /\ TokenRow.used r = false /\ exists now, r' = consume now r).

(** [d'] is [d] after redemptions of the digest [h] and nothing else. *)
Definition redeemed_only (h : JsString) (d d' : Db) : Prop :=
  users d' = users d /\ sessions d' = sessions d /\
  forall k,
    match oneTimeTokens d !! k, oneTimeTokens d' !! k with
    | None, None => True
    | Some r, Some r' => row_history h k r r'
    | _, _ => False
    end.

(* ===================================================================== *)
(** * Further notions used in the properties below *)
(* ===================================================================== *)

(** The rows of one user. *)
Definition rows_of (userId : Z) (d : Db) : gmap JsString TokenRow.t :=
  Sql.rows_where (fun _ r => TokenRow.userId r =? userId) (oneTimeTokens d).

(** The token table after the first pass, and after the first and third. *)
Definition pass1 (now : Z) (t : gmap JsString TokenRow.t) : gmap JsString TokenRow.t :=
  (Sql.delete (token_expired now) t).2.

Definition pass13 (now : Z) (t : gmap JsString TokenRow.t) : gmap JsString TokenRow.t :=
  (Sql.delete (old_used (now - thirty_days)) (pass1 now t)).2.

Definition pass2 (now : Z) (s : gmap JsString SessionRow.t) : gmap JsString SessionRow.t :=
  (Sql.delete (session_expired now) s).2.

Module RaceCourse.

(** A call in flight was made at or after [t0]. *)
Definition made_since (t0 : Z) (c : Concurrent.Call) : Prop :=
  match c with
  | Concurrent.Updating now | Concurrent.Diagnosing now => t0 <= now
  | _ => True
  end.

(** The awaited statements a call may still make, and the return. *)
Definition rank (c : Concurrent.Call) : nat :=
  match c with
  | Concurrent.Pending => 3
  | Concurrent.Updating _ => 2
  | Concurrent.Diagnosing _ => 1
  | Concurrent.Settled _ => 0
  end.

Definition work (cs : list Concurrent.Call) : nat := sum_list (rank <$> cs).

Definition call_steps (evs : list Concurrent.Event) : nat :=
  length (List.filter (fun ev => match ev with Concurrent.Advance _ _ => true | Concurrent.Tick _ => false end) evs).

Section Course.
Context `{Sha256}.
Variable token : JsString.
Variable t0 : Z.       (* the time the race starts *)
Variable d0 : Db.      (* the store the race starts on *)

(** What holds all along a race that starts at [t0] on [d0]. *)
Definition race_course (s : Concurrent.System) : Prop :=
  t0 <= Concurrent.clock s /\
  Forall (made_since t0) (Concurrent.calls s) /\
  redeemed_only (hashToken token) d0 (Concurrent.store s) /\
  (Concurrent.successes (Concurrent.calls s) = 0%nat \/
   (Concurrent.successes (Concurrent.calls s) = 1%nat /\
    (exists r, oneTimeTokens (Concurrent.store s) !! hashToken token = Some r /\
               TokenRow.used r = true) /\
    (exists r0, oneTimeTokens d0 !! hashToken token = Some r0 /\
                TokenRow.used r0 = false /\ t0 < TokenRow.expiresAt r0))).

End Course.

End RaceCourse.

(* ===================================================================== *)
(** * Properties of the codec *)
(* ===================================================================== *)

Module CodecFacts.
Import Codec.

Example base64url_Man : base64url (list_byte_of_string "Man") = js "TWFu".
Proof. reflexivity. Qed.

Example base64url_tail1 : base64url (list_byte_of_string "M") = js "TQ".
Proof. reflexivity. Qed.

Example base64url_tail2 : base64url [xfb; xff] = js "-_8".
Proof. reflexivity. Qed.

Example validate_doc_1 : validateTokenFormat (js "AbC123dEf456GhI7") = true.
Proof. reflexivity. Qed.

Example validate_doc_2 : validateTokenFormat (js "invalid+token") = false.
Proof. reflexivity. Qed.

Example validate_doc_3 : validateTokenFormat (js "short") = false.
Proof. reflexivity. Qed.

Lemma in_units_below (n : nat) (c : N) : (c < N.of_nat n)%N -> In c (units_below n).
Proof.
  intros Hc. unfold units_below. apply in_map_iff.
  exists (N.to_nat c). split; [apply N2Nat.id |].
  apply in_seq. lia.
Qed.

Lemma class_in_alphabet (c : N) :
  base64url_class c = true <-> In c url_safe_alphabet.
Proof.
  split.
  - intros Hc.
    assert (Hlt : (c < N.of_nat 123)%N).
    { unfold base64url_class in Hc.
      change (N.of_nat 123) with 123%N.
      repeat (apply orb_prop in Hc as [Hc | Hc]);
        try (apply andb_prop in Hc as [_ Hc]);
        first [apply N.leb_le in Hc | apply N.eqb_eq in Hc]; lia. }
    assert (Hall : forallb (fun u => implb (base64url_class u)
                                        (existsb (N.eqb u) url_safe_alphabet))
                           (units_below 123) = true) by (vm_compute; reflexivity).
    rewrite forallb_forall in Hall.
    specialize (Hall c (in_units_below 123 c Hlt)).
    rewrite Hc in Hall. cbn [implb] in Hall.
    apply existsb_exists in Hall as (u & Hu & Heq).
    apply N.eqb_eq in Heq. now subst u.
  - intros Hin.
    assert (Hall : forallb base64url_class url_safe_alphabet = true)
      by (vm_compute; reflexivity).
    rewrite forallb_forall in Hall. now apply Hall.
Qed.

Lemma forallb_class_alphabet (s : JsString) :
  forallb base64url_class s = true <-> Forall (fun c => In c url_safe_alphabet) s.
Proof.
  rewrite forallb_forall, List.Forall_forall.
  split; intros Hs c Hc; apply class_in_alphabet; auto.
Qed.

Lemma validateTokenFormat_unfold (s : JsString) :
  validateTokenFormat s = true <->
  length s = 16%nat /\ forallb base64url_class s = true.
Proof.
  unfold validateTokenFormat. simpl expectedLength.
  destruct (Nat.eqb_spec (length s) 16) as [Hlen | Hlen]; simpl.
  - destruct s as [| c s]; [discriminate Hlen |].
    unfold test_class_plus. tauto.
  - split; [discriminate | tauto].
Qed.

(** C6.  [validateTokenFormat candidate] is true exactly when the candidate
    has 16 code units, all of them in the URL-safe alphabet; so a string of
    length 15 or 17 is rejected, and so is one with [+], [/], [=], a space, a
    tab, a line feed or a carriage return in it. *)
Theorem validateTokenFormat_iff :
  (forall candidate : JsString,
      validateTokenFormat candidate = true <->
      length candidate = 16%nat /\
      Forall (fun c => In c url_safe_alphabet) candidate) /\
  (forall candidate : JsString,
      length candidate = 15%nat \/ length candidate = 17%nat ->
      validateTokenFormat candidate = false) /\
  (forall (candidate : JsString) (c : N),
      In c candidate -> In c (js "+/= " ++ [9; 10; 13]%N) ->
      validateTokenFormat candidate = false).
Proof.
  split; [| split].
  - intros s. rewrite validateTokenFormat_unfold, forallb_class_alphabet. tauto.
  - intros s Hlen.
    destruct (validateTokenFormat s) eqn:Hv; [| reflexivity].
    apply validateTokenFormat_unfold in Hv as [Hv _]. lia.
  - intros s c Hin Hbad.
    destruct (validateTokenFormat s) eqn:Hv; [| reflexivity].
    apply validateTokenFormat_unfold in Hv as [_ Hv].
    rewrite forallb_forall in Hv. specialize (Hv c Hin).
    simpl in Hbad.
    repeat (destruct Hbad as [<- | Hbad]; [discriminate Hv |]).
    contradiction.
Qed.

(** ** Generated tokens *)

Lemma list_ind3 {A} (P : list A -> Prop) :
  P [] -> (forall a, P [a]) -> (forall a b, P [a; b]) ->
  (forall a b c l, P l -> P (a :: b :: c :: l)) ->
  forall l, P l.
Proof.
  intros H0 H1 H2 H3.
  assert (Hall : forall l, P l /\ (forall a, P (a :: l)) /\ (forall a b, P (a :: b :: l))).
  { induction l as [| x l (IH0 & IH1 & IH2)]; [auto |].
    split; [apply IH1 | split; [intros a; apply IH2 | intros a b; apply H3, IH0]]. }
  intros l. apply Hall.
Qed.

Lemma b64url_unit_class (i : N) : (i < 64)%N -> base64url_class (b64url_unit i) = true.
Proof.
  intros Hi.
  assert (Hall : forallb (fun u => base64url_class (b64url_unit u)) (units_below 64) = true)
    by (vm_compute; reflexivity).
  rewrite forallb_forall in Hall. apply Hall, in_units_below. exact Hi.
Qed.

Lemma sextet_class (g shift : N) : base64url_class (sextet g shift) = true.
Proof.
  unfold sextet. apply b64url_unit_class.
  change 63%N with (N.ones 6). rewrite N.land_ones.
  apply N.mod_lt. discriminate.
Qed.

Lemma base64url_class_all (bytes : list byte) :
  forallb base64url_class (base64url bytes) = true.
Proof.
  induction bytes as [| a | a b | a b c rest IH] using list_ind3;
    cbn [base64url forallb]; rewrite ?sextet_class; auto.
Qed.

Lemma base64url_length (bytes : list byte) :
  length (base64url bytes) = ((4 * length bytes + 2) / 3)%nat.
Proof.
  induction bytes as [| a | a b | a b c rest IH] using list_ind3;
    try reflexivity.
  cbn [base64url length]. rewrite IH.
  replace (4 * S (S (S (length rest))) + 2)%nat
    with ((4 * length rest + 2) + 4 * 3)%nat by lia.
  rewrite Nat.div_add by discriminate. lia.
Qed.

(** C7.  For every 12 random bytes [generateOneTimeToken] returns, and does
    not throw: the base64url text of 12 bytes has exactly 16 code units, all in
    the URL-safe alphabet, so the length check passes and the token satisfies
    [validateTokenFormat]. *)
Theorem generateOneTimeToken_total (randomBytes : list byte) :
  length randomBytes = entropyBytes DEFAULT_TOKEN_CONFIG ->
  exists token,
    generateOneTimeToken randomBytes = Returned token /\
    token = base64url randomBytes /\
    length token = 16%nat /\
    Forall (fun c => In c url_safe_alphabet) token /\
    validateTokenFormat token = true.
Proof.
  simpl entropyBytes. intros Hlen.
  assert (H16 : length (base64url randomBytes) = 16%nat).
  { rewrite base64url_length, Hlen. reflexivity. }
  exists (base64url randomBytes). repeat split.
  - unfold generateOneTimeToken. simpl expectedLength. rewrite H16. reflexivity.
  - exact H16.
  - apply forallb_class_alphabet, base64url_class_all.
  - apply validateTokenFormat_unfold. split; [exact H16 | apply base64url_class_all].
Qed.

Lemma generateOneTimeToken_total_witness :
  exists token,
    generateOneTimeToken (list_byte_of_string "hello world!") = Returned token /\
    token = base64url (list_byte_of_string "hello world!") /\
    length token = 16%nat /\
    Forall (fun c => In c url_safe_alphabet) token /\
    validateTokenFormat token = true.
Proof.
  apply (generateOneTimeToken_total (list_byte_of_string "hello world!")).
  reflexivity.
Defined.

End CodecFacts.

(* ===================================================================== *)
(** * Statements that address one key *)
(* ===================================================================== *)

Module SqlFacts.
Section Keyed.
Context {K : Type} `{Countable K} {R : Type}.
Variable key : K.
Variable cond : R -> bool.
Variable w : K -> R -> bool.
Hypothesis w_keyed : forall k r, w k r = bool_decide (k = key) && cond r.

Lemma rows_where_keyed (t : gmap K R) :
  Sql.rows_where w t =
  match t !! key with
  | Some r => if cond r then {[ key := r ]} else ∅
  | None => ∅
  end.
Proof.
  unfold Sql.rows_where. apply map_eq. intros k. apply option_eq. intros x.
  rewrite map_lookup_filter_Some. cbn [fst snd]. rewrite w_keyed.
  rewrite andb_true_iff, bool_decide_eq_true.
  destruct (t !! key) as [r |] eqn:Hkey.
  - destruct (cond r) eqn:Hr.
    + rewrite lookup_singleton_Some. split.
      * intros (Hk & -> & _). split; congruence.
      * intros [<- <-]. auto.
    + rewrite lookup_empty. split; [| discriminate].
      intros (Hk & -> & Hx). congruence.
  - rewrite lookup_empty. split; [| discriminate].
    intros (Hk & -> & _). congruence.
Qed.

Lemma select_keyed (t : gmap K R) :
  Sql.select w t =
  match t !! key with
  | Some r => if cond r then [r] else []
  | None => []
  end.
Proof.
  unfold Sql.select. rewrite rows_where_keyed.
  destruct (t !! key) as [r |]; [destruct (cond r) |];
    now rewrite ?map_to_list_singleton, ?map_to_list_empty.
Qed.

Lemma update_keyed (set : R -> R) (t : gmap K R) :
  Sql.update w set t =
  match t !! key with
  | Some r => if cond r then ([set r], <[ key := set r ]> t) else ([], t)
  | None => ([], t)
  end.
Proof.
  unfold Sql.update. rewrite select_keyed.
  assert (Hother : forall k, k <> key ->
            map_imap (fun k r => Some (if w k r then set r else r)) t !! k = t !! k).
  { intros k Hk. rewrite map_lookup_imap.
    destruct (t !! k) as [x |]; [| reflexivity]. cbn.
    rewrite w_keyed, bool_decide_eq_false_2 by exact Hk. reflexivity. }
  assert (Hkey : map_imap (fun k r => Some (if w k r then set r else r)) t !! key
                 = (fun r => if cond r then set r else r) <$> t !! key).
  { rewrite map_lookup_imap.
    destruct (t !! key) as [x |]; [| reflexivity]. cbn.
    rewrite w_keyed, bool_decide_eq_true_2 by reflexivity. reflexivity. }
  destruct (t !! key) as [r |] eqn:Hr; [destruct (cond r) eqn:Hc |];
    cbn; f_equal; apply map_eq; intros k;
    destruct (decide (k = key)) as [-> | Hk];
    rewrite ?lookup_insert_eq, ?lookup_insert_ne by auto;
    rewrite ?Hkey, ?Hother by auto; rewrite ?Hr; cbn; rewrite ?Hc; reflexivity.
Qed.

End Keyed.

Section Delete.
Context {K : Type} `{Countable K} {R : Type}.

Lemma delete_lookup (w : K -> R -> bool) (t : gmap K R) (k : K) (r : R) :
  (Sql.delete w t).2 !! k = Some r <-> t !! k = Some r /\ w k r = false.
Proof.
  unfold Sql.delete. cbn [snd]. rewrite map_lookup_filter_Some. cbn [fst snd].
  rewrite not_true_iff_false. reflexivity.
Qed.

Lemma count_empty (w : K -> R -> bool) : Sql.count w (∅ : gmap K R) = 0%nat.
Proof. unfold Sql.count, Sql.rows_where. now rewrite map_filter_empty, map_size_empty. Qed.

End Delete.
End SqlFacts.

(* ===================================================================== *)
(** * Properties of the lifecycle operations *)
(* ===================================================================== *)

Module LifecycleFacts.

Lemma with_tokens_same (d : Db) : with_tokens d (oneTimeTokens d) = d.
Proof. now destruct d. Qed.

Lemma consumable_keyed (h : JsString) (now : Z) (k : JsString) (r : TokenRow.t) :
  consumable h now k r =
  bool_decide (k = h) &&
  (bool_decide (TokenRow.used r = false) && (now <? TokenRow.expiresAt r)).
Proof. unfold consumable. now rewrite andb_assoc. Qed.

Lemma update_consume_lookup (h : JsString) (now : Z) (d : Db) :
  update_consume h now d =
  match oneTimeTokens d !! h with
  | Some r =>
      if redeemable now r
      then (Returned [consume now r],
            with_tokens d (<[ h := consume now r ]> (oneTimeTokens d)))
      else (Returned [], d)
  | None => (Returned [], d)
  end.
Proof.
  unfold update_consume.
  rewrite (SqlFacts.update_keyed h (redeemable now) _ (consumable_keyed h now)).
  destruct (oneTimeTokens d !! h) as [r |]; [destruct (redeemable now r) |];
    now rewrite ?with_tokens_same.
Qed.

Lemma select_by_hash_lookup (h : JsString) (d : Db) :
  select_by_hash h d =
  (Returned match oneTimeTokens d !! h with
            | Some r => [r]
            | None => []
            end, d).
Proof.
  unfold select_by_hash.
  rewrite (SqlFacts.select_keyed h (fun _ => true))
    by (intros; now rewrite andb_true_r).
  now destruct (oneTimeTokens d !! h).
Qed.

Lemma fault_free_tl (fs : list bool) : fault_free fs -> fault_free (List.tl fs).
Proof. intros Hfs. destruct Hfs; [constructor | assumption]. Qed.

Lemma query_fault {A} (stmt : Db -> Outcome A * Db) (w : World) (fs : list bool) :
  faults w = true :: fs ->
  query stmt w = (Threw DriverError, {| db := db w; faults := fs |}).
Proof. intros Hf. unfold query. now rewrite Hf. Qed.

Lemma query_calm {A} (stmt : Db -> Outcome A * Db) (w : World) :
  List.hd false (faults w) = false ->
  query stmt w = ((stmt (db w)).1, {| db := (stmt (db w)).2; faults := List.tl (faults w) |}).
Proof.
  intros Hf. unfold query.
  destruct (faults w) as [| [|] fs]; cbn in *; try discriminate;
    now destruct (stmt (db w)).
Qed.

Lemma fault_free_hd (fs : list bool) : fault_free fs -> List.hd false fs = false.
Proof. intros Hfs. now destruct Hfs. Qed.

(** A round trip either throws the driver's error or runs its statement. *)
Lemma query_cases {A} (stmt : Db -> Outcome A * Db) (w : World) :
  (exists fs, faults w = true :: fs /\
              query stmt w = (Threw DriverError, {| db := db w; faults := fs |})) \/
  (List.hd false (faults w) = false /\
   query stmt w = ((stmt (db w)).1,
                   {| db := (stmt (db w)).2; faults := List.tl (faults w) |})).
Proof.
  destruct (List.hd false (faults w)) eqn:Hhd.
  - left. destruct (faults w) as [| b fs] eqn:Hf; cbn in Hhd; [discriminate |].
    subst b. exists fs. split; [reflexivity |]. now apply query_fault.
  - right. split; [reflexivity |]. now apply query_calm.
Qed.

Section WithHash.
Context `{Sha256}.

(** What [verifyAndConsumeToken] does on a well-formed token when the store
    answers. *)
Lemma verifyAndConsumeToken_calm (now : Z) (token : JsString) (w : World) :
  Codec.validateTokenFormat token = true ->
  fault_free (faults w) ->
  verifyAndConsumeToken now token w =
  match oneTimeTokens (db w) !! hashToken token with
  | None =>
      (Returned (failed NOT_FOUND "Token not found or invalid"),
       {| db := db w; faults := List.tl (List.tl (faults w)) |})
  | Some r =>
      if redeemable now r then
        (Returned (succeeded (TokenRow.userId r)),
         {| db := with_tokens (db w)
                    (<[ hashToken token := consume now r ]> (oneTimeTokens (db w)));
            faults := List.tl (faults w) |})
      else if TokenRow.used r then
        (Returned (failed ALREADY_USED "Token has already been used"),
         {| db := db w; faults := List.tl (List.tl (faults w)) |})
      else
        (Returned (failed EXPIRED "Token has expired"),
         {| db := db w; faults := List.tl (List.tl (faults w)) |})
  end.
Proof.
  intros Hvalid Hcalm.
  unfold verifyAndConsumeToken. rewrite Hvalid. cbn [negb].
  unfold try_catch, bind.
  rewrite query_calm by now apply fault_free_hd.
  rewrite update_consume_lookup.
  destruct (oneTimeTokens (db w) !! hashToken token) as [r |] eqn:Hrow.
  - destruct (redeemable now r) eqn:Hred; cbn [fst snd].
    + reflexivity.
    + rewrite query_calm by (cbn; now apply fault_free_hd, fault_free_tl).
      rewrite select_by_hash_lookup. cbn [fst snd db faults]. rewrite Hrow.
      destruct (TokenRow.used r) eqn:Hused; [reflexivity |].
      unfold redeemable in Hred. rewrite Hused in Hred. cbn in Hred.
      apply Z.ltb_ge in Hred. apply Z.leb_le in Hred. rewrite Hred.
      reflexivity.
  - cbn [fst snd].
    rewrite query_calm by (cbn; now apply fault_free_hd, fault_free_tl).
    rewrite select_by_hash_lookup. cbn [fst snd db faults]. rewrite Hrow.
    reflexivity.
Qed.

(** What [checkTokenValidity] does on a well-formed token when the store
    answers. *)
Lemma checkTokenValidity_calm (now : Z) (token : JsString) (w : World) :
  Codec.validateTokenFormat token = true ->
  List.hd false (faults w) = false ->
  checkTokenValidity now token w =
  (Returned match oneTimeTokens (db w) !! hashToken token with
            | None => failed NOT_FOUND "Token not found or invalid"
            | Some r =>
                if TokenRow.used r then failed ALREADY_USED "Token has already been used"
                else if TokenRow.expiresAt r <=? now then failed EXPIRED "Token has expired"
                else succeeded (TokenRow.userId r)
            end,
   {| db := db w; faults := List.tl (faults w) |}).
Proof.
  intros Hvalid Hcalm.
  unfold checkTokenValidity. rewrite Hvalid. cbn [negb].
  unfold try_catch, bind.
  rewrite query_calm by assumption.
  rewrite select_by_hash_lookup. cbn [fst snd].
  destruct (oneTimeTokens (db w) !! hashToken token) as [r |]; [| reflexivity].
  destruct (TokenRow.used r); [reflexivity |].
  now destruct (TokenRow.expiresAt r <=? now).
Qed.

Lemma generated_token_valid (randomBytes : list byte) (token : JsString) :
  Codec.generateOneTimeToken randomBytes = Returned token ->
  Codec.validateTokenFormat token = true.
Proof.
  unfold Codec.generateOneTimeToken.
  destruct (Nat.eqb_spec (length (Codec.base64url randomBytes))
                         (Codec.expectedLength Codec.DEFAULT_TOKEN_CONFIG)) as [Hlen | Hlen];
    cbn [negb]; [| discriminate].
  intros [= <-]. apply CodecFacts.validateTokenFormat_unfold.
  split; [exact Hlen | apply CodecFacts.base64url_class_all].
Qed.

Lemma generateTokenForUser_inv (randomBytes : list byte) (nowMs userId : Z)
    (expirationMs : option Z) (td : TokenData.t) :
  generateTokenForUser randomBytes nowMs userId expirationMs = Returned td ->
  Codec.validateTokenFormat (TokenData.token td) = true /\
  TokenData.hash td = hashToken (TokenData.token td) /\
  TokenData.userId td = userId /\
  TokenData.expiresAt td = Codec.createTokenExpiration nowMs expirationMs.
Proof.
  unfold generateTokenForUser.
  destruct (Codec.generateOneTimeToken randomBytes) as [token | e] eqn:Hgen;
    [| discriminate].
  intros [= <-]. cbn. split; [| auto].
  eapply generated_token_valid, Hgen.
Qed.

End WithHash.

Lemma insert_token_cases (h : JsString) (row : TokenRow.t) (d : Db) :
  insert_token h row d = (Threw DriverError, d) \/
  (oneTimeTokens d !! h = None /\ TokenRow.userId row ∈ users d /\
   insert_token h row d = (Returned tt, with_tokens d (<[ h := row ]> (oneTimeTokens d)))).
Proof.
  unfold insert_token.
  destruct (negb (Nat.leb (length h) 64)); [now left |].
  destruct (bool_decide_reflect (TokenRow.userId row ∈ users d)) as [Hu | Hu];
    cbn [negb]; [| now left].
  destruct (oneTimeTokens d !! h); [now left | now right].
Qed.

Lemma storeToken_cases (dbNow : Z) (h : JsString) (userId expiresAt : Z) (w : World) :
  (exists w', storeToken dbNow h userId expiresAt w = (Returned false, w') /\ db w' = db w) \/
  (List.hd false (faults w) = false /\
   oneTimeTokens (db w) !! h = None /\ userId ∈ users (db w) /\
   storeToken dbNow h userId expiresAt w =
   (Returned true,
    {| db := with_tokens (db w)
               (<[ h := fresh_row dbNow userId expiresAt ]> (oneTimeTokens (db w)));
       faults := List.tl (faults w) |})).
Proof.
  unfold storeToken, try_catch, bind. fold (fresh_row dbNow userId expiresAt).
  destruct (query_cases (insert_token h (fresh_row dbNow userId expiresAt)) w)
    as [(fs & Hf & ->) | (Hhd & ->)].
  - left. eexists. split; reflexivity.
  - destruct (insert_token_cases h (fresh_row dbNow userId expiresAt) (db w))
      as [-> | (Hnone & Hu & ->)]; cbn [fst snd].
    + left. eexists. split; reflexivity.
    + right. repeat split; assumption.
Qed.

Lemma storeToken_true (dbNow : Z) (h : JsString) (userId expiresAt : Z) (w w1 : World) :
  storeToken dbNow h userId expiresAt w = (Returned true, w1) ->
  oneTimeTokens (db w1) !! h = Some (fresh_row dbNow userId expiresAt) /\
  faults w1 = List.tl (faults w).
Proof.
  destruct (storeToken_cases dbNow h userId expiresAt w)
    as [(w' & -> & _) | (_ & _ & _ & ->)]; [discriminate |].
  intros [= <-]. cbn. split; [apply lookup_insert_eq | reflexivity].
Qed.

End LifecycleFacts.

Module LifecycleTheorems.
Import LifecycleFacts.

Section WithHash.
Context `{Sha256}.

(** C2.  A well-formed token that [storeToken] has just stored and that has
    not expired is redeemed by the first [verifyAndConsumeToken]: the call
    returns success with the owner's id and the row now has [used = true] and
    [usedAt = now] (one update, both fields together); a second call on the
    same raw token returns the failure [ALREADY_USED] and leaves the store
    alone. *)
Theorem redeem_exactly_once (dbNow now1 now2 : Z) (token : JsString)
    (userId expiresAt : Z) (w0 w1 : World) :
  Codec.validateTokenFormat token = true ->
  storeToken dbNow (hashToken token) userId expiresAt w0 = (Returned true, w1) ->
  fault_free (faults w1) ->
  now1 < expiresAt ->
  exists w2 w3,
    verifyAndConsumeToken now1 token w1 = (Returned (succeeded userId), w2) /\
    oneTimeTokens (db w2) !! hashToken token =
      Some {| TokenRow.userId := userId; TokenRow.createdAt := dbNow;
              TokenRow.expiresAt := expiresAt;
              TokenRow.usedAt := Some now1; TokenRow.used := true |} /\
    (forall k, k <> hashToken token ->
               oneTimeTokens (db w2) !! k = oneTimeTokens (db w1) !! k) /\
    verifyAndConsumeToken now2 token w2 =
      (Returned (failed ALREADY_USED "Token has already been used"), w3) /\
    db w3 = db w2.
Proof.
  intros Hvalid Hstore Hcalm Hnow.
  apply storeToken_true in Hstore as [Hrow _].
  pose proof (verifyAndConsumeToken_calm now1 token w1 Hvalid Hcalm) as H1.
  rewrite Hrow in H1.
  assert (Hred : redeemable now1 (fresh_row dbNow userId expiresAt) = true).
  { unfold redeemable. cbn. now apply Z.ltb_lt. }
  rewrite Hred in H1. cbn [fresh_row TokenRow.userId] in H1.
  eexists. eexists. split; [exact H1 |]. cbn [db with_tokens oneTimeTokens].
  split; [apply lookup_insert_eq |].
  split; [intros k Hk; now apply lookup_insert_ne |].
  match goal with |- verifyAndConsumeToken _ _ ?w = _ /\ _ =>
    pose proof (verifyAndConsumeToken_calm now2 token w Hvalid) as H2 end.
  cbn [db faults with_tokens oneTimeTokens] in H2.
  rewrite lookup_insert_eq in H2. cbn in H2.
  split; [apply H2; now apply fault_free_tl | reflexivity].
Qed.

(** C3.  On a well-formed token whose conditional update touches no row,
    [verifyAndConsumeToken] (the store answering, nothing written between the
    update and the read) reports [NOT_FOUND] when the digest has no row,
    [ALREADY_USED] when the row has [used = true], [EXPIRED] when the row is
    unused with [expiresAt <= now], and leaves the store as it was.  A token
    whose row has [expiresAt <= now] is never redeemed, whatever the store
    does, and a digest without a row is answered [NOT_FOUND]. *)
Theorem redeem_failure_reason (now : Z) (token : JsString) (w : World) :
  Codec.validateTokenFormat token = true ->
  (forall r, oneTimeTokens (db w) !! hashToken token = Some r ->
             TokenRow.expiresAt r <= now ->
             exists res, (verifyAndConsumeToken now token w).1 = Returned res /\
                         Result.success res = false) /\
  (fault_free (faults w) ->
   (update_consume (hashToken token) now (db w)).1 = Returned [] ->
   db (verifyAndConsumeToken now token w).2 = db w /\
   (verifyAndConsumeToken now token w).1 =
   Returned match oneTimeTokens (db w) !! hashToken token with
            | None => failed NOT_FOUND "Token not found or invalid"
            | Some r =>
                if TokenRow.used r
                then failed ALREADY_USED "Token has already been used"
                else failed EXPIRED "Token has expired"
            end /\
   (forall r, oneTimeTokens (db w) !! hashToken token = Some r ->
              TokenRow.used r = false -> TokenRow.expiresAt r <= now)) /\
  (fault_free (faults w) ->
   oneTimeTokens (db w) !! hashToken token = None ->
   (verifyAndConsumeToken now token w).1 =
   Returned (failed NOT_FOUND "Token not found or invalid")).
Proof.
  intros Hvalid. split; [| split]; cycle 2.
  { intros Hcalm Hnone.
    rewrite (verifyAndConsumeToken_calm now token w Hvalid Hcalm), Hnone.
    reflexivity. }
  - intros r Hrow Hexp.
    unfold verifyAndConsumeToken. rewrite Hvalid. cbn [negb].
    unfold try_catch, bind.
    destruct (query_cases (update_consume (hashToken token) now) w)
      as [(fs & _ & ->) | (_ & ->)]; [eexists; split; reflexivity |].
    rewrite update_consume_lookup, Hrow.
    assert (Hred : redeemable now r = false).
    { unfold redeemable. apply andb_false_intro2. now apply Z.ltb_ge. }
    rewrite Hred. cbn [fst snd].
    match goal with |- context [query ?s ?w'] =>
      destruct (query_cases s w') as [(fs & _ & ->) | (_ & ->)] end;
      [eexists; split; reflexivity |].
    rewrite select_by_hash_lookup. cbn [fst snd db]. rewrite Hrow.
    destruct (TokenRow.used r); [eexists; split; reflexivity |].
    apply Z.leb_le in Hexp. rewrite Hexp. eexists; split; reflexivity.
  - intros Hcalm Hzero.
    rewrite update_consume_lookup in Hzero.
    rewrite (verifyAndConsumeToken_calm now token w Hvalid Hcalm).
    destruct (oneTimeTokens (db w) !! hashToken token) as [r |] eqn:Hrow.
    + destruct (redeemable now r) eqn:Hred; [discriminate Hzero |].
      split; [now destruct (TokenRow.used r) |].
      split; [now destruct (TokenRow.used r) |].
      intros r' [= <-] Hused. unfold redeemable in Hred.
      rewrite Hused in Hred. cbn in Hred. now apply Z.ltb_ge in Hred.
    + split; [reflexivity |]. split; [reflexivity |]. discriminate.
Qed.

(** C9.  For a row that is both used and past its expiry,
    [checkTokenValidity] and [verifyAndConsumeToken] (the store answering) both
    report [ALREADY_USED], not [EXPIRED]. *)
Theorem used_before_expired (now : Z) (token : JsString) (w : World) (r : TokenRow.t) :
  Codec.validateTokenFormat token = true ->
  fault_free (faults w) ->
  oneTimeTokens (db w) !! hashToken token = Some r ->
  TokenRow.used r = true ->
  TokenRow.expiresAt r <= now ->
  (checkTokenValidity now token w).1 =
    Returned (failed ALREADY_USED "Token has already been used") /\
  (verifyAndConsumeToken now token w).1 =
    Returned (failed ALREADY_USED "Token has already been used").
Proof.
  intros Hvalid Hcalm Hrow Hused Hexp. split.
  - rewrite checkTokenValidity_calm by (auto using fault_free_hd).
    cbn [fst]. now rewrite Hrow, Hused.
  - rewrite verifyAndConsumeToken_calm by assumption.
    rewrite Hrow. unfold redeemable. rewrite Hused. reflexivity.
Qed.

(** [checkTokenValidity] writes nothing. *)
Lemma checkTokenValidity_reads (now : Z) (token : JsString) (w : World) :
  db (checkTokenValidity now token w).2 = db w.
Proof.
  unfold checkTokenValidity.
  destruct (Codec.validateTokenFormat token); cbn [negb]; [| reflexivity].
  unfold try_catch, bind.
  destruct (query_cases (select_by_hash (hashToken token)) w)
    as [(fs & _ & ->) | (_ & ->)]; [reflexivity |].
  rewrite select_by_hash_lookup. cbn [fst snd].
  destruct (oneTimeTokens (db w) !! hashToken token) as [r |]; [| reflexivity].
  destruct (TokenRow.used r); [reflexivity |].
  now destruct (TokenRow.expiresAt r <=? now).
Qed.

(** C5.  A token issued by [generateTokenForUser] at [nowMs] and stored by
    [storeToken] is reported valid, with the same user id, by every
    [checkTokenValidity] made less than the token's lifetime (one hour when
    none is given) after [nowMs], so in particular by one made at once; the
    row still has [used = false].  [checkTokenValidity] never changes the
    store, and (the store answering) two calls in a row give the same result
    unless the expiry falls between their two times. *)
Theorem issue_then_check (randomBytes : list byte) (nowMs userId : Z)
    (expirationMs : option Z) (td : TokenData.t) (dbNow now : Z) (w0 w1 : World) :
  generateTokenForUser randomBytes nowMs userId expirationMs = Returned td ->
  storeToken dbNow (TokenData.hash td) (TokenData.userId td) (TokenData.expiresAt td) w0
    = (Returned true, w1) ->
  fault_free (faults w1) ->
  now < nowMs + match expirationMs with Some ms => ms | None => 60 * 60 * 1000 end ->
  (checkTokenValidity now (TokenData.token td) w1).1 = Returned (succeeded userId) /\
  (exists r, oneTimeTokens (db (checkTokenValidity now (TokenData.token td) w1).2)
               !! TokenData.hash td = Some r /\ TokenRow.used r = false) /\
  (forall n t w, db (checkTokenValidity n t w).2 = db w) /\
  (forall n1 n2 t w,
      fault_free (faults w) ->
      (forall r, oneTimeTokens (db w) !! hashToken t = Some r ->
                 (TokenRow.expiresAt r <=? n1) = (TokenRow.expiresAt r <=? n2)) ->
      (checkTokenValidity n2 t (checkTokenValidity n1 t w).2).1
      = (checkTokenValidity n1 t w).1).
Proof.
  intros Hgen Hstore Hcalm Hnow.
  apply generateTokenForUser_inv in Hgen as (Hvalid & Hhash & Huser & Hexp).
  assert (Hlive : now < TokenData.expiresAt td).
  { rewrite Hexp. unfold Codec.createTokenExpiration.
    destruct expirationMs as [ms |]; cbn [default]; [exact Hnow |].
    cbn [Codec.defaultExpirationMs Codec.DEFAULT_TOKEN_CONFIG]. exact Hnow. }
  clear Hnow Hexp.
  rewrite Hhash, Huser in *.
  apply storeToken_true in Hstore as [Hrow _].
  split; [| split; [| split]].
  - rewrite checkTokenValidity_calm by (auto using fault_free_hd).
    cbn [fst]. rewrite Hrow. cbn.
    apply Z.leb_gt in Hlive. now rewrite Hlive.
  - rewrite checkTokenValidity_reads. eexists. split; [exact Hrow | reflexivity].
  - apply checkTokenValidity_reads.
  - intros n1 n2 t w Hw Hsame.
    destruct (Codec.validateTokenFormat t) eqn:Ht.
    + rewrite (checkTokenValidity_calm n1 t w) by (auto using fault_free_hd).
      rewrite checkTokenValidity_calm
        by (cbn; auto using fault_free_hd, fault_free_tl).
      cbn [fst snd db].
      destruct (oneTimeTokens (db w) !! hashToken t) as [r |] eqn:Hr; [| reflexivity].
      now rewrite (Hsame r eq_refl).
    + unfold checkTokenValidity. rewrite Ht. reflexivity.
Qed.

Lemma failed_code (c : ErrorCode) (msg : string) :
  Result.success (failed c msg) = false ->
  exists c', Result.error (failed c msg) = Some c' /\
             In (error_literal c') source_error_codes.
Proof.
  intros _. exists c. split; [reflexivity |].
  destruct c; cbn; tauto.
Qed.

(** Case split on the round trip the goal is waiting for. *)
Ltac split_query :=
  match goal with
  | |- context [query ?s ?w1] =>
      destruct (query_cases s w1) as [(? & _ & ->) | (_ & ->)]
  end.

(** Close a goal about a call whose result is now known. *)
Ltac report_leaf :=
  eexists; split; [reflexivity |];
  split; [first [apply failed_code | discriminate] |];
  first
    [ discriminate
    | intros _ _; split; reflexivity
    | intros _ Hh; cbn [fst snd threw] in Hh;
      solve [ destruct Hh
            | destruct Hh as [[] | [Heq Ht]];
              first [discriminate Heq | destruct Ht] ] ].

(** C4, as the code has it.  [verifyAndConsumeToken], [checkTokenValidity]
    and [storeToken] always return and never throw.  A failure result carries
    one of the five codes [INVALID_FORMAT], [NOT_FOUND], [EXPIRED],
    [ALREADY_USED], [DATABASE_ERROR]; a round trip to the store that throws is
    reported as [DATABASE_ERROR], and by [storeToken] as [false]. *)
Theorem failures_carry_source_codes (now dbNow : Z) (token tokenHash : JsString)
    (userId expiresAt : Z) (w : World) :
  (exists res,
      (verifyAndConsumeToken now token w).1 = Returned res /\
      (Result.success res = false ->
       exists c, Result.error res = Some c /\ In (error_literal c) source_error_codes) /\
      (Codec.validateTokenFormat token = true ->
       threw (query (update_consume (hashToken token) now) w).1 \/
       ((query (update_consume (hashToken token) now) w).1 = Returned [] /\
        threw (query (select_by_hash (hashToken token))
                     (query (update_consume (hashToken token) now) w).2).1) ->
       Result.success res = false /\ Result.error res = Some DATABASE_ERROR)) /\
  (exists res,
      (checkTokenValidity now token w).1 = Returned res /\
      (Result.success res = false ->
       exists c, Result.error res = Some c /\ In (error_literal c) source_error_codes) /\
      (Codec.validateTokenFormat token = true ->
       threw (query (select_by_hash (hashToken token)) w).1 ->
       Result.success res = false /\ Result.error res = Some DATABASE_ERROR)) /\
  (exists stored,
      (storeToken dbNow tokenHash userId expiresAt w).1 = Returned stored /\
      (threw (query (insert_token tokenHash (fresh_row dbNow userId expiresAt)) w).1 ->
       stored = false)).
Proof.
  split; [| split].
  - unfold verifyAndConsumeToken.
    destruct (Codec.validateTokenFormat token); cbn [negb]; [| report_leaf].
    unfold try_catch, bind.
    split_query; [report_leaf |].
    rewrite update_consume_lookup. cbn [fst snd].
    destruct (oneTimeTokens (db w) !! hashToken token) as [r |] eqn:Hrow;
      [destruct (redeemable now r); [report_leaf |] |];
      cbn [fst snd]; (split_query; [report_leaf |]);
      rewrite select_by_hash_lookup; cbn [fst snd db]; rewrite Hrow;
      [destruct (TokenRow.used r); [| destruct (TokenRow.expiresAt r <=? now)] |];
      report_leaf.
  - unfold checkTokenValidity.
    destruct (Codec.validateTokenFormat token); cbn [negb]; [| report_leaf].
    unfold try_catch, bind.
    split_query; [report_leaf |].
    rewrite select_by_hash_lookup. cbn [fst snd].
    destruct (oneTimeTokens (db w) !! hashToken token) as [r |];
      [destruct (TokenRow.used r); [| destruct (TokenRow.expiresAt r <=? now)] |];
      report_leaf.
  - unfold storeToken, try_catch, bind. fold (fresh_row dbNow userId expiresAt).
    destruct (query (insert_token tokenHash (fresh_row dbNow userId expiresAt)) w)
      as [[u | e] w']; cbn [fst]; eexists; (split; [reflexivity |]); [intros [] | reflexivity].
Qed.

(** C10.  When the statistics query throws, [getTokenStats] returns the
    all-zero record and does not throw: the very result it gives (the store
    answering) for a user without any token row. *)
Theorem stats_failure_is_silent (dbNow userId : Z) (w w' : World) :
  threw (query (select_stats dbNow userId) w).1 ->
  fault_free (faults w') ->
  (forall k r, oneTimeTokens (db w') !! k = Some r -> TokenRow.userId r <> userId) ->
  (getTokenStats dbNow userId w).1 =
    Returned {| Stats.total := 0; Stats.used := 0; Stats.expired := 0; Stats.active := 0 |} /\
  (getTokenStats dbNow userId w').1 = (getTokenStats dbNow userId w).1.
Proof.
  intros Hthrew Hcalm Hnone.
  assert (Hw : (getTokenStats dbNow userId w).1 =
    Returned {| Stats.total := 0; Stats.used := 0; Stats.expired := 0; Stats.active := 0 |}).
  { unfold getTokenStats, try_catch, bind.
    destruct (query (select_stats dbNow userId) w) as [[rows | e] w1];
      [destruct Hthrew | reflexivity]. }
  split; [exact Hw |]. rewrite Hw.
  unfold getTokenStats, try_catch, bind.
  rewrite query_calm by now apply fault_free_hd.
  unfold select_stats. cbn [fst snd].
  assert (Hmine : Sql.rows_where (fun _ r => TokenRow.userId r =? userId)
                    (oneTimeTokens (db w')) = ∅).
  { unfold Sql.rows_where. apply map_empty_filter. intros k r Hr. cbn.
    specialize (Hnone k r Hr). intros Heq.
    apply Z.eqb_eq in Heq. contradiction. }
  rewrite Hmine, map_size_empty, !SqlFacts.count_empty. reflexivity.
Qed.

End WithHash.

Lemma redeem_exactly_once_witness :
  exists w2 w3,
    verifyAndConsumeToken (H := Demo.plain_digest) 2000 Demo.token Demo.world1
      = (Returned (succeeded 7), w2) /\
    oneTimeTokens (db w2) !! hashToken (H := Demo.plain_digest) Demo.token =
      Some {| TokenRow.userId := 7; TokenRow.createdAt := 1000;
              TokenRow.expiresAt := 5000;
              TokenRow.usedAt := Some 2000; TokenRow.used := true |} /\
    (forall k, k <> hashToken (H := Demo.plain_digest) Demo.token ->
               oneTimeTokens (db w2) !! k = oneTimeTokens (db Demo.world1) !! k) /\
    verifyAndConsumeToken (H := Demo.plain_digest) 2001 Demo.token w2 =
      (Returned (failed ALREADY_USED "Token has already been used"), w3) /\
    db w3 = db w2.
Proof.
  apply (redeem_exactly_once (H := Demo.plain_digest)
           1000 2000 2001 Demo.token 7 5000 Demo.world0 Demo.world1).
  - reflexivity.
  - vm_compute. reflexivity.
  - vm_compute. repeat constructor.
  - lia.
Defined.

Lemma redeem_failure_reason_witness :
  Codec.validateTokenFormat Demo.token = true /\
  (verifyAndConsumeToken (H := Demo.plain_digest) 6000 Demo.token Demo.world1).1
  = Returned (failed EXPIRED "Token has expired").
Proof.
  split; [reflexivity |].
  destruct (redeem_failure_reason (H := Demo.plain_digest) 6000 Demo.token Demo.world1
              eq_refl) as (_ & Hzero & _).
  destruct Hzero as (_ & Hres & _).
  - vm_compute. repeat constructor.
  - vm_compute. reflexivity.
  - rewrite Hres. vm_compute. reflexivity.
Defined.

Lemma used_before_expired_witness :
  (checkTokenValidity (H := Demo.plain_digest) 6000 Demo.token Demo.world2).1 =
    Returned (failed ALREADY_USED "Token has already been used") /\
  (verifyAndConsumeToken (H := Demo.plain_digest) 6000 Demo.token Demo.world2).1 =
    Returned (failed ALREADY_USED "Token has already been used").
Proof.
  apply (used_before_expired (H := Demo.plain_digest) 6000 Demo.token Demo.world2
           {| TokenRow.userId := 7; TokenRow.createdAt := 1000;
              TokenRow.expiresAt := 5000;
              TokenRow.usedAt := Some 2000; TokenRow.used := true |}).
  - reflexivity.
  - vm_compute. repeat constructor.
  - vm_compute. reflexivity.
  - reflexivity.
  - cbn. lia.
Defined.

Lemma issue_then_check_witness :
  generateTokenForUser (H := Demo.plain_digest) Demo.random12 1000 7 None
    = Returned Demo.issued /\
  1000 < 1000 + 60 * 60 * 1000 /\
  (checkTokenValidity (H := Demo.plain_digest) 1000 (TokenData.token Demo.issued)
     (storeToken 1000 (TokenData.hash Demo.issued) (TokenData.userId Demo.issued)
        (TokenData.expiresAt Demo.issued) Demo.world0).2).1
  = Returned (succeeded 7).
Proof.
  split; [vm_compute; reflexivity |]. split; [lia |].
  apply (issue_then_check (H := Demo.plain_digest) Demo.random12 1000 7 None
           Demo.issued 1000 1000 Demo.world0
           (storeToken 1000 (TokenData.hash Demo.issued) (TokenData.userId Demo.issued)
              (TokenData.expiresAt Demo.issued) Demo.world0).2).
  - vm_compute. reflexivity.
  - vm_compute. reflexivity.
  - vm_compute. repeat constructor.
  - lia.
Defined.

Lemma stats_failure_is_silent_witness :
  (getTokenStats 2000 7 Demo.world1_down).1 =
    Returned {| Stats.total := 0; Stats.used := 0; Stats.expired := 0; Stats.active := 0 |} /\
  (getTokenStats 2000 7 Demo.world0).1 = (getTokenStats 2000 7 Demo.world1_down).1.
Proof.
  apply (stats_failure_is_silent 2000 7 Demo.world1_down Demo.world0).
  - exact I.
  - repeat constructor.
  - intros k r Hr. cbn in Hr. rewrite lookup_empty in Hr. discriminate Hr.
Defined.

Example stats_of_stored_token :
  (getTokenStats 2000 7 Demo.world1).1 =
  Returned {| Stats.total := 1; Stats.used := 0; Stats.expired := 0; Stats.active := 1 |}.
Proof. vm_compute. reflexivity. Qed.

(** C4 as stated fails: with the connection lost, [verifyAndConsumeToken]
    reports a failure whose code is [DATABASE_ERROR], a literal that is not one
    of the five the specification lists. *)
Lemma storage_error_is_not_a_source_code :
  exists res,
    (verifyAndConsumeToken (H := Demo.plain_digest) 2000 Demo.token Demo.world1_down).1
      = Returned res /\
    Result.success res = false /\
    Result.error res = Some DATABASE_ERROR /\
    ~ In (error_literal DATABASE_ERROR) spec_error_codes.
Proof.
  eexists. split; [vm_compute; reflexivity |].
  split; [reflexivity |]. split; [reflexivity |].
  cbn. intros Hin.
  repeat (destruct Hin as [Heq | Hin]; [discriminate Heq |]).
  exact Hin.
Qed.

End LifecycleTheorems.

(* ===================================================================== *)
(** * Properties of the retention sweep *)
(* ===================================================================== *)

Module SweepTheorems.
Import LifecycleFacts.

Ltac unfold_sweep :=
  unfold cleanupExpiredTokensAndSessions, try_finally, try_catch, bind,
    client_end, ret, throw.

Lemma delete_tokens_eq (c : JsString -> TokenRow.t -> bool) (d : Db) :
  delete_tokens c d =
  (Returned {| count := (Sql.delete c (oneTimeTokens d)).1 |},
   with_tokens d (Sql.delete c (oneTimeTokens d)).2).
Proof. unfold delete_tokens. now destruct (Sql.delete c (oneTimeTokens d)). Qed.

Lemma delete_sessions_eq (c : JsString -> SessionRow.t -> bool) (d : Db) :
  delete_sessions c d =
  (Returned {| count := (Sql.delete c (sessions d)).1 |},
   with_sessions d (Sql.delete c (sessions d)).2).
Proof. unfold delete_sessions. now destruct (Sql.delete c (sessions d)). Qed.

Lemma sweep_first_fails (now : Z) (w : World) (fs : list bool) :
  faults w = true :: fs ->
  cleanupExpiredTokensAndSessions now w =
  (Threw DriverError, {| db := db w; faults := fs |}).
Proof.
  intros Hf. unfold_sweep.
  rewrite (query_fault _ w fs Hf). reflexivity.
Qed.

Lemma sweep_second_fails (now : Z) (w : World) (fs : list bool) :
  faults w = false :: true :: fs ->
  cleanupExpiredTokensAndSessions now w =
  (Threw DriverError,
   {| db := with_tokens (db w) (Sql.delete (token_expired now) (oneTimeTokens (db w))).2;
      faults := fs |}).
Proof.
  intros Hf. unfold_sweep.
  rewrite query_calm by (rewrite Hf; reflexivity).
  rewrite delete_tokens_eq. cbn [fst snd].
  rewrite (query_fault _ _ fs) by (cbn; rewrite Hf; reflexivity).
  reflexivity.
Qed.

Lemma sweep_third_fails (now : Z) (w : World) (fs : list bool) :
  faults w = false :: false :: true :: fs ->
  cleanupExpiredTokensAndSessions now w =
  (Threw DriverError,
   {| db := with_sessions
              (with_tokens (db w) (Sql.delete (token_expired now) (oneTimeTokens (db w))).2)
              (Sql.delete (session_expired now) (sessions (db w))).2;
      faults := fs |}).
Proof.
  intros Hf. unfold_sweep.
  rewrite query_calm by (rewrite Hf; reflexivity).
  rewrite delete_tokens_eq. cbn [fst snd].
  rewrite query_calm by (cbn; rewrite Hf; reflexivity).
  rewrite delete_sessions_eq. cbn [fst snd db sessions with_tokens].
  rewrite (query_fault _ _ fs) by (cbn; rewrite Hf; reflexivity).
  reflexivity.
Qed.

Lemma sweep_calm (now : Z) (w : World) :
  fault_free (faults w) ->
  exists stats,
    (cleanupExpiredTokensAndSessions now w).1 = Returned stats /\
    oneTimeTokens (db (cleanupExpiredTokensAndSessions now w).2) =
      (Sql.delete (old_used (now - thirty_days))
         (Sql.delete (token_expired now) (oneTimeTokens (db w))).2).2 /\
    sessions (db (cleanupExpiredTokensAndSessions now w).2) =
      (Sql.delete (session_expired now) (sessions (db w))).2.
Proof.
  intros Hcalm. unfold_sweep.
  rewrite query_calm by now apply fault_free_hd.
  rewrite delete_tokens_eq. cbn [fst snd].
  rewrite query_calm by (cbn; now apply fault_free_hd, fault_free_tl).
  rewrite delete_sessions_eq. cbn [fst snd db sessions with_tokens].
  rewrite query_calm
    by (cbn; now apply fault_free_hd, fault_free_tl, fault_free_tl).
  rewrite delete_tokens_eq. cbn [fst snd db].
  eexists. split; [reflexivity |]. split; reflexivity.
Qed.

(** C8, as the code has it.  The sweep makes its three bulk deletes one
    after the other inside a single [try]: a delete that throws ends the sweep,
    the deletes after it are not made, and the error is thrown on to the caller;
    when no delete throws, all three are made, and exactly the rows that no
    pass selects are left.  The scheduled runs catch what the sweep throws: a
    run always returns. *)
Theorem sweep_is_one_sequence (now : Z) (w : World) (fs : list bool) :
  (faults w = true :: fs ->
   (cleanupExpiredTokensAndSessions now w).1 = Threw DriverError /\
   db (cleanupExpiredTokensAndSessions now w).2 = db w /\
   faults (cleanupExpiredTokensAndSessions now w).2 = fs) /\
  (faults w = false :: true :: fs ->
   (cleanupExpiredTokensAndSessions now w).1 = Threw DriverError /\
   sessions (db (cleanupExpiredTokensAndSessions now w).2) = sessions (db w) /\
   oneTimeTokens (db (cleanupExpiredTokensAndSessions now w).2) =
     (Sql.delete (token_expired now) (oneTimeTokens (db w))).2 /\
   faults (cleanupExpiredTokensAndSessions now w).2 = fs) /\
  (faults w = false :: false :: true :: fs ->
   (cleanupExpiredTokensAndSessions now w).1 = Threw DriverError /\
   oneTimeTokens (db (cleanupExpiredTokensAndSessions now w).2) =
     (Sql.delete (token_expired now) (oneTimeTokens (db w))).2) /\
  (fault_free (faults w) ->
   (exists stats, (cleanupExpiredTokensAndSessions now w).1 = Returned stats) /\
   (forall k r,
       oneTimeTokens (db (cleanupExpiredTokensAndSessions now w).2) !! k = Some r <->
       oneTimeTokens (db w) !! k = Some r /\
       ~ TokenRow.expiresAt r < now /\
       ~ (exists u, TokenRow.usedAt r = Some u /\ u < now - 30 * 24 * 60 * 60 * 1000)) /\
   (forall k s,
       sessions (db (cleanupExpiredTokensAndSessions now w).2) !! k = Some s <->
       sessions (db w) !! k = Some s /\ ~ SessionRow.expiresAt s < now)) /\
  ((dailyCleanupJob_onTick now w).1 = Returned tt /\
   (hourlySessionCleanupJob_onTick now w).1 = Returned tt).
Proof.
  split; [| split; [| split; [| split]]]; cycle 4.
  { unfold dailyCleanupJob_onTick, hourlySessionCleanupJob_onTick, try_catch, bind.
    destruct (cleanupExpiredTokensAndSessions now w) as [[stats | e] w'];
      [destruct (0 <? Cleanup.expiredSessions stats)%nat |]; split; reflexivity. }
  - intros Hf. now rewrite (sweep_first_fails now w fs Hf).
  - intros Hf. now rewrite (sweep_second_fails now w fs Hf).
  - intros Hf. now rewrite (sweep_third_fails now w fs Hf).
  - intros Hcalm. destruct (sweep_calm now w Hcalm) as (stats & Hres & Ht & Hs).
    split; [now exists stats |]. split.
    + intros k r. rewrite Ht, !SqlFacts.delete_lookup.
      unfold token_expired, old_used. fold thirty_days.
      rewrite Z.ltb_ge. split.
      * intros [[Hr Hexp] Hold]. split; [exact Hr |]. split; [lia |].
        intros (u & Hu & Hlt). rewrite Hu in Hold. apply Z.ltb_ge in Hold. lia.
      * intros (Hr & Hexp & Hold). split; [split; [exact Hr | lia] |].
        destruct (TokenRow.usedAt r) as [u |]; [| reflexivity].
        apply Z.ltb_ge. destruct (Z.lt_ge_cases u (now - thirty_days)) as [Hlt | Hge];
          [| lia].
        exfalso. apply Hold. now exists u.
    + intros k s. rewrite Hs, SqlFacts.delete_lookup.
      unfold session_expired. rewrite Z.ltb_ge. split.
      * intros [Hr Hexp]. split; [exact Hr | lia].
      * intros [Hr Hexp]. split; [exact Hr | lia].
Qed.

(** C8 as stated fails: when the delete of expired tokens throws, the sweep
    throws to its caller, and neither of the other passes has run: the expired
    session and the token used more than 30 days ago are still in the store, and
    the two round trips they would have taken were never made. *)
Lemma failed_pass_stops_the_sweep :
  let after := cleanupExpiredTokensAndSessions 3000000000 Demo.stale_world in
  after.1 = Threw DriverError /\
  (exists s, sessions (db after.2) !! js "s1" = Some s /\
             SessionRow.expiresAt s < 3000000000) /\
  (exists r, oneTimeTokens (db after.2) !! js "old" = Some r /\
             exists u, TokenRow.usedAt r = Some u /\ u < 3000000000 - thirty_days) /\
  faults after.2 = [false; false].
Proof.
  cbv zeta. rewrite (sweep_first_fails _ Demo.stale_world [false; false] eq_refl).
  cbn [fst snd db faults]. split; [reflexivity |].
  split; [eexists; split; [vm_compute; reflexivity | cbn; lia] |].
  split; [| reflexivity].
  eexists. split; [vm_compute; reflexivity |].
  eexists. split; [reflexivity | vm_compute; reflexivity].
Qed.

Example sweep_of_stale_store :
  let after := cleanupExpiredTokensAndSessions 3000000000
                 {| db := db Demo.stale_world; faults := [] |} in
  after.1 = Returned {| Cleanup.expiredTokens := 0; Cleanup.expiredSessions := 0;
                        Cleanup.oldUsedTokens := 0 |} /\
  oneTimeTokens (db after.2) = ∅ /\ sessions (db after.2) = ∅.
Proof. vm_compute. repeat split. Qed.

End SweepTheorems.

(* ===================================================================== *)
(** * Concurrent redemption: one winner *)
(* ===================================================================== *)

Module RaceTheorems.
Import LifecycleFacts Concurrent.

Lemma successes_insert (cs : list Call) (i : nat) (c c' : Call) :
  cs !! i = Some c ->
  (successes (<[ i := c' ]> cs) + Nat.b2n (won c) = successes cs + Nat.b2n (won c'))%nat.
Proof.
  unfold successes. revert i.
  induction cs as [| x cs IH]; intros [| i] Hi; try discriminate Hi.
  - injection Hi as ->. cbn. destruct (won c), (won c'); cbn; lia.
  - change ((x :: cs) !! S i) with (cs !! i) in Hi. specialize (IH i Hi).
    change (<[ S i := c' ]> (x :: cs)) with (x :: <[ i := c' ]> cs).
    cbn [List.filter]. destruct (won x); cbn [length]; lia.
Qed.

Lemma successes_replicate_pending (n : nat) : successes (replicate n Pending) = 0%nat.
Proof. unfold successes. induction n; [reflexivity | exact IHn]. Qed.

Lemma losers_count (cs : list Call) :
  (successes cs + length (List.filter (fun c => negb (won c)) cs) = length cs)%nat.
Proof.
  unfold successes. induction cs as [| c cs IH]; [reflexivity |].
  cbn. destruct (won c); cbn; lia.
Qed.

Section Race.
Context `{Sha256}.
Variable token : JsString.
Variable row0 : TokenRow.t.
Variable n : nat.

Local Abbreviation call_ok := (Concurrent.call_ok token row0).
Local Abbreviation race_inv := (Concurrent.race_inv token row0 n).

Lemma call_ok_mono (clk clk' : Z) (usd usd' : bool) (c : Call) :
  clk <= clk' -> (usd = true -> usd' = true) ->
  call_ok clk usd c -> call_ok clk' usd' c.
Proof.
  intros Hclk Husd. destruct c as [| now | now | res]; cbn; auto.
  - lia.
  - intros [Hnow [Hu | He]]; (split; [lia | auto]).
  - destruct (Result.success res).
    + intros [Hu Hres]. auto.
    + intros [[He Hu] | [[He Hexp] | Hrest]]; auto.
      right. left. split; [exact He | lia].
Qed.

Lemma race_inv_init (t0 : Z) (d : Db) :
  oneTimeTokens d !! hashToken token = Some row0 ->
  TokenRow.used row0 = false ->
  race_inv {| clock := t0; store := d; calls := replicate n Pending |}.
Proof.
  intros Hrow Hused. exists row0. cbn. rewrite Hused.
  repeat split; auto.
  - apply successes_replicate_pending.
  - apply length_replicate.
  - now apply Forall_replicate.
Qed.

Lemma race_inv_step (s s' : System) :
  race_inv s -> step token s s' -> race_inv s'.
Proof.
  intros (r & Hrow & Huid & Hexp & Hsucc & Hlen & Hall) Hstep.
  destruct Hstep as [s dt Hdt | s i fault c c' d' Hi Hadv].
  - exists r. cbn. repeat split; auto.
    eapply Forall_impl; [exact Hall |].
    intros c. apply call_ok_mono; [lia | auto].
  - pose proof (Forall_lookup_1 _ _ _ _ Hall Hi) as Hc.
    pose proof (successes_insert (calls s) i c c' Hi) as Hcount.
    assert (Hkeep : forall c'',
      won c = false -> won c'' = false -> call_ok (clock s) (TokenRow.used r) c'' ->
      race_inv {| clock := clock s; store := store s; calls := <[ i := c'' ]> (calls s) |}).
    { intros c'' Hw Hw' Hok. exists r. cbn [clock store calls]. repeat split; auto.
      - pose proof (successes_insert (calls s) i c c'' Hi) as Hcnt.
        rewrite Hw, Hw' in Hcnt. cbn [Nat.b2n] in Hcnt. lia.
      - now rewrite length_insert.
      - now apply Forall_insert. }
    destruct c as [| now | now | res]; cbn [advance] in Hadv.
    + destruct (Codec.validateTokenFormat token) eqn:Hvalid; cbn [negb] in Hadv;
        injection Hadv as <- <-; apply Hkeep; cbn; auto; try lia.
    + destruct fault.
      { injection Hadv as <- <-. apply Hkeep; cbn; auto. }
      rewrite update_consume_lookup, Hrow in Hadv.
      destruct (redeemable now r) eqn:Hred.
      * injection Hadv as <- <-.
        unfold redeemable in Hred. apply andb_prop in Hred as [Hu Hnow].
        apply bool_decide_eq_true in Hu. rewrite Hu in *.
        exists (consume now r).
        cbn [clock store calls with_tokens oneTimeTokens consume
             TokenRow.userId TokenRow.expiresAt TokenRow.used].
        rewrite lookup_insert_eq. repeat split; auto.
        -- cbn [won succeeded Result.success Nat.b2n] in Hcount. lia.
        -- now rewrite length_insert.
        -- apply Forall_insert.
           ++ eapply Forall_impl; [exact Hall |].
              intros c. apply call_ok_mono; [lia | auto].
           ++ cbn. now rewrite Huid.
      * injection Hadv as <- <-. apply Hkeep; cbn; auto.
        split; [exact Hc |].
        unfold redeemable in Hred. apply andb_false_iff in Hred as [Hu | Hnow].
        -- left. apply bool_decide_eq_false in Hu. now destruct (TokenRow.used r).
        -- right. apply Z.ltb_ge in Hnow. lia.
    + destruct fault.
      { injection Hadv as <- <-. apply Hkeep; cbn; auto. }
      rewrite select_by_hash_lookup, Hrow in Hadv.
      destruct Hc as [Hnow Hwhy].
      destruct (TokenRow.used r) eqn:Hu.
      * injection Hadv as <- <-. apply Hkeep; cbn; auto.
      * destruct Hwhy as [Hu' | Hpast]; [discriminate Hu' |].
        assert (Hle : (TokenRow.expiresAt r <=? now) = true)
          by (apply Z.leb_le; lia).
        rewrite Hle in Hadv. injection Hadv as <- <-.
        apply Hkeep; cbn; auto. right. left. split; [reflexivity | lia].
    + discriminate Hadv.
Qed.

Lemma race_inv_reachable (t0 : Z) (d : Db) (s : System) :
  oneTimeTokens d !! hashToken token = Some row0 ->
  TokenRow.used row0 = false ->
  rtc (step token) {| clock := t0; store := d; calls := replicate n Pending |} s ->
  race_inv s.
Proof.
  intros Hrow Hused Hrun.
  eapply (rtc_ind_r race_inv); [| | exact Hrun].
  - now apply race_inv_init.
  - intros y z _ Hstep Hy. eapply race_inv_step; eassumption.
Qed.

Lemma fire_sound (ev : Event) (s s' : System) :
  fire token ev s = Some s' -> step token s s'.
Proof.
  destruct ev as [dt | i fault]; cbn [fire].
  - destruct (Z.leb_spec 0 dt) as [Hdt | Hdt]; [| discriminate].
    intros [= <-]. now constructor.
  - destruct (calls s !! i) as [c |] eqn:Hi; [| discriminate].
    destruct (advance token fault (clock s) c (store s)) as [[c' d'] |] eqn:Hadv;
      [| discriminate].
    intros [= <-]. econstructor; eassumption.
Qed.

Lemma run_sound (evs : list Event) (s s' : System) :
  run token evs s = Some s' -> rtc (step token) s s'.
Proof.
  revert s. induction evs as [| ev evs IH]; intros s; cbn [run].
  - intros [= <-]. apply rtc_refl.
  - destruct (fire token ev s) as [s1 |] eqn:Hfire; [| discriminate].
    intros Hrun. eapply rtc_l; [eapply fire_sound, Hfire | apply IH, Hrun].
Qed.

(** A call that nothing interleaves with is [verifyAndConsumeToken]. *)
Lemma solo_is_verifyAndConsumeToken (now : Z) (w : World) :
  exists res d fs,
    solo token 3 (faults w) now Pending (db w) = (Settled res, d, fs) /\
    verifyAndConsumeToken now token w = (Returned res, {| db := d; faults := fs |}).
Proof.
  unfold verifyAndConsumeToken. cbn [solo advance].
  destruct (Codec.validateTokenFormat token); cbn [negb];
    [| destruct w; do 3 eexists; split; reflexivity].
  unfold try_catch, bind.
  destruct (query_cases (update_consume (hashToken token) now) w)
    as [(fs & Hf & ->) | (Hhd & ->)].
  { rewrite Hf. cbn [solo advance List.hd List.tl].
    do 3 eexists. split; reflexivity. }
  rewrite Hhd. cbn [solo advance].
  destruct (update_consume (hashToken token) now (db w))
    as [[[| consumedToken rows] | e] d1]; cbn [fst snd solo advance];
    try (do 3 eexists; split; reflexivity).
  match goal with |- context [query ?q ?w1] =>
    destruct (query_cases q w1) as [(fs & Hf & ->) | (Hhd1 & ->)] end;
    cbn [faults db] in *.
  { rewrite Hf. cbn [solo advance List.hd List.tl].
    do 3 eexists. split; reflexivity. }
  rewrite Hhd1. cbn [solo advance].
  destruct (select_by_hash (hashToken token) d1)
    as [[[| tokenRecord rows] | e] d2]; cbn [fst snd solo advance];
    try (do 3 eexists; split; reflexivity).
  destruct (TokenRow.used tokenRecord);
    [| destruct (TokenRow.expiresAt tokenRecord <=? now)];
    do 3 eexists; split; reflexivity.
Qed.

(** C1.  Any number of calls of [verifyAndConsumeToken] race for one stored,
    unused token, each store statement being one atomic step and the steps
    interleaving in any order.  At every moment at most one call has reported
    success.  When the token is well formed, the race has run to its end before
    the token's expiry and no round trip has failed, exactly one call has
    reported success, with the owner's id, and each of the [n - 1] others has
    reported the failure [ALREADY_USED]. *)
Theorem one_redeemer_wins (t0 : Z) (d : Db) (s : System) :
  oneTimeTokens d !! hashToken token = Some row0 ->
  TokenRow.used row0 = false ->
  rtc (step token) {| clock := t0; store := d; calls := replicate n Pending |} s ->
  (successes (calls s) <= 1)%nat /\
  (Codec.validateTokenFormat token = true ->
   (0 < n)%nat ->
   Forall (fun c => settled c = true) (calls s) ->
   clock s < TokenRow.expiresAt row0 ->
   Forall (fun c => ~ lost_with DATABASE_ERROR c) (calls s) ->
   successes (calls s) = 1%nat /\
   length (List.filter (fun c => negb (won c)) (calls s)) = (n - 1)%nat /\
   Forall (fun c => c = Settled (succeeded (TokenRow.userId row0)) \/
                    lost_with ALREADY_USED c) (calls s)).
Proof.
  intros Hrow Hused Hrun.
  destruct (race_inv_reachable t0 d s Hrow Hused Hrun)
    as (r & _ & _ & _ & Hsucc & Hlen & Hall).
  split; [rewrite Hsucc; destruct (TokenRow.used r); lia |].
  intros Hvalid Hn Hdone Hclock Hnofault.
  assert (Hends : Forall (fun c =>
            (c = Settled (succeeded (TokenRow.userId row0)) \/ lost_with ALREADY_USED c)
            /\ TokenRow.used r = true) (calls s)).
  { rewrite Forall_forall in *. intros c Hc.
    specialize (Hall c Hc). specialize (Hdone c Hc). specialize (Hnofault c Hc).
    destruct c as [| now | now | res]; try discriminate Hdone.
    cbn in Hall. destruct (Result.success res) eqn:Hres.
    - destruct Hall as [Hu ->]. auto.
    - destruct Hall as [[He Hu] | [[He Hexp] | [He | [He Hinv]]]].
      + split; [right; now exists res | exact Hu].
      + lia.
      + exfalso. apply Hnofault. now exists res.
      + congruence. }
  assert (Hu : TokenRow.used r = true).
  { destruct (calls s) as [| c cs]; [cbn in Hlen; lia |].
    now apply Forall_cons in Hends as [[_ Hu] _]. }
  rewrite Hu in Hsucc. split; [exact Hsucc |]. split.
  - pose proof (losers_count (calls s)) as Hcount. lia.
  - eapply Forall_impl; [exact Hends |]. now intros c [Hc _].
Qed.

End Race.

Lemma one_redeemer_wins_witness :
  run (H := Demo.plain_digest) Demo.token Demo.race_schedule Demo.race_start = Some Demo.race_end /\
  successes (calls Demo.race_end) = 1%nat /\
  length (List.filter (fun c => negb (won c)) (calls Demo.race_end)) = 1%nat.
Proof.
  assert (Hrun : run (H := Demo.plain_digest) Demo.token Demo.race_schedule Demo.race_start
                 = Some Demo.race_end) by (vm_compute; reflexivity).
  split; [exact Hrun |].
  destruct (one_redeemer_wins (H := Demo.plain_digest) Demo.token
              (fresh_row 1000 7 5000) 2 2000 (db Demo.world1) Demo.race_end)
    as [_ Hend].
  - vm_compute. reflexivity.
  - reflexivity.
  - eapply run_sound. exact Hrun.
  - destruct Hend as (Hone & Hrest & _).
    + reflexivity.
    + lia.
    + repeat constructor.
    + cbn. lia.
    + repeat constructor; intros (res & [= <-] & _ & Herr); discriminate Herr.
    + split; [exact Hone | exact Hrest].
Defined.

End RaceTheorems.


(* ===================================================================== *)
(** * More on the codec *)
(* ===================================================================== *)

Module CodecMore.
Import Codec.

Lemma lor_low_part (x c k : N) :
  (c < 2 ^ k)%N -> N.lor (x * 2 ^ k) c = (x * 2 ^ k + c)%N.
Proof.
  intros Hc.
  assert (Hland : N.land (x * 2 ^ k) c = 0%N); [| now rewrite <- N.lxor_lor, N.add_nocarry_lxor].
  apply N.bits_inj. intros i. rewrite N.land_spec, N.bits_0.
  destruct (N.lt_ge_cases i k) as [Hlt | Hge].
  - rewrite N.mul_pow2_bits_low by exact Hlt. reflexivity.
  - rewrite <- (N.mod_small c (2 ^ k)) by exact Hc.
    rewrite N.mod_pow2_bits_high by exact Hge. apply andb_false_r.
Qed.

(** The 24-bit group of three bytes, as a number. *)
Lemma group_value (a b c : byte) :
  N.lor (N.lor (N.shiftl (Byte.to_N a) 16) (N.shiftl (Byte.to_N b) 8)) (Byte.to_N c)
  = (Byte.to_N a * 65536 + Byte.to_N b * 256 + Byte.to_N c)%N.
Proof.
  pose proof (Byte.to_N_bounded a) as Ha.
  pose proof (Byte.to_N_bounded b) as Hb.
  pose proof (Byte.to_N_bounded c) as Hc.
  rewrite !N.shiftl_mul_pow2.
  change (2 ^ 16)%N with 65536%N. change (2 ^ 8)%N with 256%N.
  replace (N.lor (Byte.to_N a * 65536) (Byte.to_N b * 256))
    with (Byte.to_N a * 65536 + Byte.to_N b * 256)%N.
  - replace (Byte.to_N a * 65536 + Byte.to_N b * 256)%N
      with ((Byte.to_N a * 256 + Byte.to_N b) * 2 ^ 8)%N
      by (change (2 ^ 8)%N with 256%N; lia).
    apply lor_low_part. change (2 ^ 8)%N with 256%N. lia.
  - symmetry. change 65536%N with (2 ^ 16)%N. apply lor_low_part.
    change (2 ^ 16)%N with 65536%N. lia.
Qed.

Lemma sextet_index (g k : N) :
  sextet g k = b64url_unit ((g / 2 ^ k) mod 64).
Proof.
  unfold sextet. rewrite N.shiftr_div_pow2.
  change 63%N with (N.ones 6). rewrite N.land_ones. reflexivity.
Qed.

Lemma b64url_unit_inj (i j : N) :
  (i < 64)%N -> (j < 64)%N -> b64url_unit i = b64url_unit j -> i = j.
Proof.
  intros Hi Hj Heq.
  assert (Hall : forallb (fun u => forallb (fun v =>
                   implb (b64url_unit u =? b64url_unit v)%N (u =? v)%N)
                   (units_below 64)) (units_below 64) = true)
    by (vm_compute; reflexivity).
  rewrite forallb_forall in Hall.
  specialize (Hall i (CodecFacts.in_units_below 64 i Hi)).
  rewrite forallb_forall in Hall.
  specialize (Hall j (CodecFacts.in_units_below 64 j Hj)).
  rewrite Heq, N.eqb_refl in Hall. cbn [implb] in Hall.
  now apply N.eqb_eq.
Qed.

Lemma sextet_inj (g g' k : N) :
  sextet g k = sextet g' k -> ((g / 2 ^ k) mod 64 = (g' / 2 ^ k) mod 64)%N.
Proof.
  rewrite !sextet_index.
  apply b64url_unit_inj; apply N.mod_lt; discriminate.
Qed.

Lemma div_mod_unique (x d q r : N) :
  (r < d)%N -> x = (d * q + r)%N -> (x / d = q /\ x mod d = r)%N.
Proof.
  intros Hr Hx. split.
  - symmetry. now apply (N.div_unique x d q r).
  - symmetry. now apply (N.mod_unique x d q r).
Qed.

(** The four 6-bit indices of a group, in terms of the digits of its bytes. *)
Lemma group_digits (a b c : N) :
  (a < 256)%N -> (b < 256)%N -> (c < 256)%N ->
  let x := (a * 65536 + b * 256 + c)%N in
  ((x / 262144) mod 64 = a / 4 /\
   (x / 4096) mod 64 = (a mod 4) * 16 + b / 16 /\
   (x / 64) mod 64 = (b mod 16) * 4 + c / 64 /\
   (x / 1) mod 64 = c mod 64)%N.
Proof.
  intros Ha Hb Hc x. subst x.
  pose proof (N.div_mod a 4 ltac:(discriminate)) as Da.
  pose proof (N.div_mod b 16 ltac:(discriminate)) as Db.
  pose proof (N.div_mod c 64 ltac:(discriminate)) as Dc.
  pose proof (N.mod_lt a 4 ltac:(discriminate)) as Ra.
  pose proof (N.mod_lt b 16 ltac:(discriminate)) as Rb.
  pose proof (N.mod_lt c 64 ltac:(discriminate)) as Rc.
  generalize dependent (a / 4)%N. generalize dependent (a mod 4)%N.
  generalize dependent (b / 16)%N. generalize dependent (b mod 16)%N.
  generalize dependent (c / 64)%N. generalize dependent (c mod 64)%N.
  intros rc Rc qc Dc rb Rb qb Db ra Ra qa Da.
  rewrite N.div_1_r.
  split; [| split; [| split]].
  - destruct (div_mod_unique (a * 65536 + b * 256 + c) 262144 qa
                (ra * 65536 + b * 256 + c)) as [-> _]; [lia | lia |].
    apply N.mod_small. lia.
  - destruct (div_mod_unique (a * 65536 + b * 256 + c) 4096 (a * 16 + qb)
                (rb * 256 + c)) as [-> _]; [lia | lia |].
    now destruct (div_mod_unique (a * 16 + qb) 64 qa (ra * 16 + qb)) as [_ ->]; [lia | lia |].
  - destruct (div_mod_unique (a * 65536 + b * 256 + c) 64 (a * 1024 + b * 4 + qc) rc)
      as [-> _]; [lia | lia |].
    now destruct (div_mod_unique (a * 1024 + b * 4 + qc) 64 (a * 16 + qb) (rb * 4 + qc))
      as [_ ->]; [lia | lia |].
  - now destruct (div_mod_unique (a * 65536 + b * 256 + c) 64 (a * 1024 + b * 4 + qc) rc)
      as [_ ->]; [lia | lia |].
Qed.

Lemma to_N_lt (x : byte) : (Byte.to_N x < 256)%N.
Proof. pose proof (Byte.to_N_bounded x). lia. Qed.

Lemma to_N_inj (x y : byte) : Byte.to_N x = Byte.to_N y -> x = y.
Proof.
  intros Hxy. pose proof (Byte.of_to_N x) as Hx.
  rewrite Hxy, Byte.of_to_N in Hx. now injection Hx.
Qed.

(** The four characters of a group determine its three bytes. *)
Lemma group_inj (a b c a' b' c' : byte) :
  let g := N.lor (N.lor (N.shiftl (Byte.to_N a) 16) (N.shiftl (Byte.to_N b) 8))
                 (Byte.to_N c) in
  let g' := N.lor (N.lor (N.shiftl (Byte.to_N a') 16) (N.shiftl (Byte.to_N b') 8))
                  (Byte.to_N c') in
  sextet g 18 = sextet g' 18 -> sextet g 12 = sextet g' 12 ->
  sextet g 6 = sextet g' 6 -> sextet g 0 = sextet g' 0 ->
  a = a' /\ b = b' /\ c = c'.
Proof.
  cbv zeta. rewrite !group_value.
  intros H18 H12 H6 H0.
  apply sextet_inj in H18, H12, H6, H0.
  change (2 ^ 18)%N with 262144%N in H18.
  change (2 ^ 12)%N with 4096%N in H12.
  change (2 ^ 6)%N with 64%N in H6.
  change (2 ^ 0)%N with 1%N in H0.
  destruct (group_digits _ _ _ (to_N_lt a) (to_N_lt b) (to_N_lt c))
    as (E18 & E12 & E6 & E0).
  destruct (group_digits _ _ _ (to_N_lt a') (to_N_lt b') (to_N_lt c'))
    as (E18' & E12' & E6' & E0').
  rewrite E18, E18' in H18. rewrite E12, E12' in H12.
  rewrite E6, E6' in H6. rewrite E0, E0' in H0.
  clear E18 E12 E6 E0 E18' E12' E6' E0'.
  assert (Hnum : Byte.to_N a = Byte.to_N a' /\ Byte.to_N b = Byte.to_N b' /\
                 Byte.to_N c = Byte.to_N c').
  { pose proof (to_N_lt a). pose proof (to_N_lt b). pose proof (to_N_lt c).
    pose proof (to_N_lt a'). pose proof (to_N_lt b'). pose proof (to_N_lt c').
    revert H18 H12 H6 H0.
    generalize (N.div_mod (Byte.to_N a) 4 ltac:(discriminate))
               (N.div_mod (Byte.to_N b) 16 ltac:(discriminate))
               (N.div_mod (Byte.to_N c) 64 ltac:(discriminate))
               (N.div_mod (Byte.to_N a') 4 ltac:(discriminate))
               (N.div_mod (Byte.to_N b') 16 ltac:(discriminate))
               (N.div_mod (Byte.to_N c') 64 ltac:(discriminate))
               (N.mod_lt (Byte.to_N a) 4 ltac:(discriminate))
               (N.mod_lt (Byte.to_N b) 16 ltac:(discriminate))
               (N.mod_lt (Byte.to_N c) 64 ltac:(discriminate))
               (N.mod_lt (Byte.to_N a') 4 ltac:(discriminate))
               (N.mod_lt (Byte.to_N b') 16 ltac:(discriminate))
               (N.mod_lt (Byte.to_N c') 64 ltac:(discriminate)).
    generalize (Byte.to_N a / 4)%N (Byte.to_N a mod 4)%N
               (Byte.to_N b / 16)%N (Byte.to_N b mod 16)%N
               (Byte.to_N c / 64)%N (Byte.to_N c mod 64)%N
               (Byte.to_N a' / 4)%N (Byte.to_N a' mod 4)%N
               (Byte.to_N b' / 16)%N (Byte.to_N b' mod 16)%N
               (Byte.to_N c' / 64)%N (Byte.to_N c' mod 64)%N.
    intros. lia. }
  destruct Hnum as (Ea & Eb & Ec).
  auto using to_N_inj.
Qed.

Lemma token_length_16 (bytes : list byte) :
  length (base64url bytes) = 16%nat <-> length bytes = 12%nat.
Proof.
  rewrite CodecFacts.base64url_length.
  pose proof (Nat.div_mod_eq (4 * length bytes + 2) 3) as Hdiv.
  pose proof (Nat.mod_upper_bound (4 * length bytes + 2) 3 ltac:(discriminate)) as Hmod.
  split; intros Hlen.
  - rewrite Hlen in Hdiv. lia.
  - rewrite Hlen. reflexivity.
Qed.

Lemma returned_from_12_bytes (randomBytes : list byte) (token : JsString) :
  generateOneTimeToken randomBytes = Returned token ->
  length randomBytes = 12%nat /\ token = base64url randomBytes.
Proof.
  unfold generateOneTimeToken. cbn [expectedLength DEFAULT_TOKEN_CONFIG].
  destruct (Nat.eqb_spec (length (base64url randomBytes)) 16) as [H16 | H16];
    cbn [negb]; [| discriminate].
  intros [= <-]. split; [now apply token_length_16 | reflexivity].
Qed.

(** X1.  [generateOneTimeToken] returns exactly when it is given 12 random
    bytes.  Given [k <> 12] bytes (which [crypto.randomBytes(12)] never gives)
    its length check fails and it throws the error whose message names the
    length of the text, [(4 * k + 2) / 3], and the expected length 16. *)
Theorem generateOneTimeToken_returns_iff (randomBytes : list byte) :
  (length randomBytes = 12%nat <->
   exists token, generateOneTimeToken randomBytes = Returned token) /\
  (length randomBytes <> 12%nat ->
   generateOneTimeToken randomBytes =
   Threw (Error (String.append "Generated token length "
                   (String.append (decimal ((4 * length randomBytes + 2) / 3))
                      " does not match expected 16")))).
Proof.
  unfold generateOneTimeToken. cbn [expectedLength DEFAULT_TOKEN_CONFIG].
  destruct (Nat.eqb_spec (length (base64url randomBytes)) 16) as [H16 | H16];
    cbn [negb]; rewrite token_length_16 in H16.
  - split; [| contradiction]. split; eauto.
  - split.
    + split; [contradiction |]. intros [token Ht]. discriminate Ht.
    + intros _. rewrite CodecFacts.base64url_length. reflexivity.
Qed.

Example generateOneTimeToken_11_bytes :
  generateOneTimeToken (list_byte_of_string "hello world") =
  Threw (Error "Generated token length 15 does not match expected 16").
Proof. reflexivity. Qed.

Lemma twelve_bytes (l : list byte) :
  length l = 12%nat ->
  exists b0 b1 b2 b3 b4 b5 b6 b7 b8 b9 b10 b11,
    l = [b0; b1; b2; b3; b4; b5; b6; b7; b8; b9; b10; b11].
Proof.
  intros Hlen.
  do 12 (destruct l as [| ? l]; [discriminate Hlen |]).
  destruct l; [| discriminate Hlen].
  repeat eexists.
Qed.

(** X2.  Two runs of [generateOneTimeToken] that return the same token were
    given the same random bytes: the text keeps all 96 bits. *)
Theorem generateOneTimeToken_inj (randomBytes randomBytes' : list byte) (token : JsString) :
  generateOneTimeToken randomBytes = Returned token ->
  generateOneTimeToken randomBytes' = Returned token ->
  randomBytes = randomBytes'.
Proof.
  intros Hgen Hgen'.
  apply returned_from_12_bytes in Hgen as [Hlen Ht'].
  apply returned_from_12_bytes in Hgen' as [Hlen' Ht].
  rewrite Ht' in Ht. clear Ht' token. symmetry in Ht.
  destruct (twelve_bytes _ Hlen) as (a0 & a1 & a2 & a3 & a4 & a5 & a6 & a7 & a8 & a9 & a10 & a11 & ->).
  destruct (twelve_bytes _ Hlen') as (c0 & c1 & c2 & c3 & c4 & c5 & c6 & c7 & c8 & c9 & c10 & c11 & ->).
  cbn [base64url] in Ht.
  injection Ht as E0 E1 E2 E3 E4 E5 E6 E7 E8 E9 E10 E11 E12 E13 E14 E15.
  destruct (group_inj _ _ _ _ _ _ E0 E1 E2 E3) as (-> & -> & ->).
  destruct (group_inj _ _ _ _ _ _ E4 E5 E6 E7) as (-> & -> & ->).
  destruct (group_inj _ _ _ _ _ _ E8 E9 E10 E11) as (-> & -> & ->).
  destruct (group_inj _ _ _ _ _ _ E12 E13 E14 E15) as (-> & -> & ->).
  reflexivity.
Qed.

Lemma generateOneTimeToken_inj_witness :
  list_byte_of_string "hello world!" = list_byte_of_string "hello world!".
Proof.
  apply (generateOneTimeToken_inj _ _ (js "aGVsbG8gd29ybGQh")); reflexivity.
Defined.

End CodecMore.

(* ===================================================================== *)
(** * [verifyTokenHash] *)
(* ===================================================================== *)

Module HashCheck.
Import Hex.

Lemma hex_value_lt (c v : N) : hex_value c = Some v -> (v < 16)%N.
Proof.
  unfold hex_value.
  repeat match goal with
         | |- context [if ?b then _ else _] => destruct b eqn:?
         end; intros [= <-];
    repeat match goal with
           | H : (_ && _) = true |- _ => apply andb_prop in H as [? ?]
           | H : (_ <=? _)%N = true |- _ => apply N.leb_le in H
           end; lia.
Qed.

Lemma hex_value_lower (c : N) : hex_value (ascii_lower c) = hex_value c.
Proof.
  destruct (N.lt_ge_cases c 128) as [Hlt | Hge].
  - assert (Hall : forallb (fun u =>
               if List.list_eq_dec N.eq_dec
                    (option_list (hex_value (ascii_lower u)))
                    (option_list (hex_value u)) then true else false)
               (units_below 128) = true) by (vm_compute; reflexivity).
    rewrite forallb_forall in Hall.
    specialize (Hall c (CodecFacts.in_units_below 128 c Hlt)).
    destruct (List.list_eq_dec _ _ _) as [Heq | _] in Hall; [| discriminate].
    destruct (hex_value (ascii_lower c)), (hex_value c); cbn in Heq; congruence.
  - unfold ascii_lower.
    destruct (N.leb_spec c 90) as [H90 | H90]; [lia |].
    now rewrite andb_false_r.
Qed.

Lemma hex_value_same_digit (c c' v : N) :
  hex_value c = Some v -> hex_value c' = Some v -> ascii_lower c = ascii_lower c'.
Proof.
  intros Hc Hc'.
  assert (Hlt : forall u w, hex_value u = Some w -> (u < 128)%N).
  { intros u w. unfold hex_value.
    repeat match goal with
           | |- context [if ?b then _ else _] => destruct b eqn:?
           end; intros [= <-];
      repeat match goal with
             | H : (_ && _) = true |- _ => apply andb_prop in H as [? ?]
             | H : (_ <=? _)%N = true |- _ => apply N.leb_le in H
             end; lia. }
  assert (Hall : forallb (fun u => forallb (fun w =>
             match hex_value u, hex_value w with
             | Some x, Some y => implb (x =? y)%N (ascii_lower u =? ascii_lower w)%N
             | _, _ => true
             end) (units_below 128)) (units_below 128) = true)
    by (vm_compute; reflexivity).
  rewrite forallb_forall in Hall.
  specialize (Hall c (CodecFacts.in_units_below 128 c (Hlt _ _ Hc))).
  rewrite forallb_forall in Hall.
  specialize (Hall c' (CodecFacts.in_units_below 128 c' (Hlt _ _ Hc'))).
  rewrite Hc, Hc', N.eqb_refl in Hall. cbn [implb] in Hall.
  now apply N.eqb_eq.
Qed.

Lemma byte_of_nibbles_inj (h l h' l' : N) :
  (h < 16)%N -> (l < 16)%N -> (h' < 16)%N -> (l' < 16)%N ->
  byte_of_nibbles h l = byte_of_nibbles h' l' -> h = h' /\ l = l'.
Proof.
  intros Hh Hl Hh' Hl'. unfold byte_of_nibbles.
  destruct (Byte.of_N (16 * h + l)) as [x |] eqn:Hx.
  2: { pose proof (Byte.to_of_N_option_map (16 * h + l)) as Hm.
       rewrite Hx in Hm. cbn in Hm.
       destruct (N.leb_spec (16 * h + l) 255); [discriminate | lia]. }
  destruct (Byte.of_N (16 * h' + l')) as [y |] eqn:Hy.
  2: { pose proof (Byte.to_of_N_option_map (16 * h' + l')) as Hm.
       rewrite Hy in Hm. cbn in Hm.
       destruct (N.leb_spec (16 * h' + l') 255); [discriminate | lia]. }
  intros <-. apply Byte.to_of_N in Hx, Hy. lia.
Qed.

Lemma list_ind_pairs {A} (P : list A -> Prop) :
  P [] -> (forall a, P [a]) -> (forall a b l, P l -> P (a :: b :: l)) ->
  forall l, P l.
Proof.
  intros H0 H1 H2.
  assert (Hall : forall l, P l /\ forall a, P (a :: l)).
  { induction l as [| x l [IH0 IH1]]; [auto |].
    split; [apply IH1 | intros a; apply H2, IH0]. }
  intros l. apply Hall.
Qed.

(** A hexadecimal digit is its own low byte. *)
Lemma hex_digit_low (c : N) : hex_digit c = true -> (c mod 256 = c)%N.
Proof.
  unfold hex_digit. destruct (hex_value c) as [v |] eqn:Hc; [| discriminate].
  intros _. apply N.mod_small. revert Hc. unfold hex_value.
  repeat match goal with
         | |- context [if ?b then _ else _] => destruct b eqn:?
         end; intros [= <-];
    repeat match goal with
           | H : (_ && _) = true |- _ => apply andb_prop in H as [? ?]
           | H : (_ <=? _)%N = true |- _ => apply N.leb_le in H
           end; lia.
Qed.

Lemma hex_low_lower (c : N) :
  hex_value (ascii_lower c mod 256) = hex_value (c mod 256).
Proof.
  destruct (N.lt_ge_cases c 256) as [Hlt | Hge].
  - rewrite (N.mod_small c 256) by exact Hlt.
    rewrite N.mod_small; [apply hex_value_lower |].
    unfold ascii_lower.
    destruct (N.leb_spec 65 c), (N.leb_spec c 90); cbn [andb]; lia.
  - unfold ascii_lower.
    destruct (N.leb_spec c 90) as [H90 | H90]; [lia |].
    now rewrite andb_false_r.
Qed.

Lemma buffer_from_hex_lower (s : JsString) :
  buffer_from_hex (List.map ascii_lower s) = buffer_from_hex s.
Proof.
  induction s as [| c | hi lo rest IH] using list_ind_pairs.
  - reflexivity.
  - reflexivity.
  - cbn [List.map buffer_from_hex]. rewrite !hex_low_lower, IH. reflexivity.
Qed.

(** A text of [2 * n] hexadecimal digits decodes to [n] bytes. *)
Lemma buffer_from_hex_length (s : JsString) :
  forallb hex_digit s = true -> Nat.Even (length s) ->
  (2 * length (buffer_from_hex s) = length s)%nat.
Proof.
  induction s as [| c | hi lo rest IH] using list_ind_pairs; intros Hhex Heven.
  - reflexivity.
  - destruct Heven as [k Hk]. cbn in Hk. lia.
  - cbn [forallb] in Hhex.
    apply andb_prop in Hhex as [Hhi Hhex]. apply andb_prop in Hhex as [Hlo Hhex].
    cbn [buffer_from_hex].
    rewrite (hex_digit_low hi Hhi), (hex_digit_low lo Hlo).
    unfold hex_digit in Hhi, Hlo.
    destruct (hex_value hi); [| discriminate]. destruct (hex_value lo); [| discriminate].
    cbn [length]. rewrite <- IH; [lia | exact Hhex |].
    destruct Heven as [k Hk]. cbn [length] in Hk. exists (k - 1)%nat. lia.
Qed.

(** Whatever the text, it decodes to at most half as many bytes. *)
Lemma buffer_from_hex_short (s : JsString) :
  (2 * length (buffer_from_hex s) <= length s)%nat.
Proof.
  induction s as [| c | hi lo rest IH] using list_ind_pairs.
  - cbn. lia.
  - cbn. lia.
  - cbn [buffer_from_hex].
    destruct (hex_value (hi mod 256)); [destruct (hex_value (lo mod 256)) |];
      cbn [length]; lia.
Qed.

(** Two texts of hexadecimal digits, of one length, that decode alike are
    the same text up to the case of the letters. *)
Lemma buffer_from_hex_inj (s s' : JsString) :
  forallb hex_digit s = true -> forallb hex_digit s' = true ->
  length s = length s' -> Nat.Even (length s) ->
  buffer_from_hex s = buffer_from_hex s' ->
  List.map ascii_lower s = List.map ascii_lower s'.
Proof.
  revert s'.
  induction s as [| c | hi lo rest IH] using list_ind_pairs;
    intros s' Hhex Hhex' Hlen Heven Hbuf.
  - destruct s'; [reflexivity | discriminate Hlen].
  - destruct Heven as [k Hk]. cbn in Hk. lia.
  - destruct s' as [| hi' [| lo' rest']]; try discriminate Hlen.
    cbn [forallb] in Hhex, Hhex'.
    apply andb_prop in Hhex as [Hhi Hhex]. apply andb_prop in Hhex as [Hlo Hhex].
    apply andb_prop in Hhex' as [Hhi' Hhex']. apply andb_prop in Hhex' as [Hlo' Hhex'].
    cbn [buffer_from_hex] in Hbuf.
    rewrite (hex_digit_low hi Hhi), (hex_digit_low lo Hlo),
      (hex_digit_low hi' Hhi'), (hex_digit_low lo' Hlo') in Hbuf.
    unfold hex_digit in Hhi, Hlo, Hhi', Hlo'.
    destruct (hex_value hi) as [h |] eqn:Eh; [| discriminate].
    destruct (hex_value lo) as [l |] eqn:El; [| discriminate].
    destruct (hex_value hi') as [h' |] eqn:Eh'; [| discriminate].
    destruct (hex_value lo') as [l' |] eqn:El'; [| discriminate].
    injection Hbuf as Hbyte Hrest.
    apply byte_of_nibbles_inj in Hbyte as [-> ->]; eauto using hex_value_lt.
    cbn [List.map]. f_equal; [eapply hex_value_same_digit; eassumption |].
    f_equal; [eapply hex_value_same_digit; eassumption |].
    apply IH; auto.
    + cbn [length] in Hlen. lia.
    + destruct Heven as [k Hk]. cbn [length] in Hk. exists (k - 1)%nat. lia.
Qed.

Lemma lower_hex_is_hex (s : JsString) :
  forallb lower_hex_digit s = true -> forallb hex_digit s = true.
Proof.
  rewrite !forallb_forall. intros Hs c Hc. specialize (Hs c Hc).
  unfold lower_hex_digit in Hs. unfold hex_digit, hex_value.
  destruct ((48 <=? c) && (c <=? 57))%N; [reflexivity |].
  cbn [orb] in Hs. now rewrite Hs.
Qed.

Lemma lower_hex_fixed (s : JsString) :
  forallb lower_hex_digit s = true -> List.map ascii_lower s = s.
Proof.
  induction s as [| c s IH]; [reflexivity |].
  cbn [forallb List.map]. intros Hs. apply andb_prop in Hs as [Hc Hs].
  rewrite IH by exact Hs. f_equal.
  unfold lower_hex_digit in Hc. unfold ascii_lower.
  destruct (N.leb_spec 65 c), (N.leb_spec c 90); cbn [andb]; try reflexivity.
  apply orb_prop in Hc as [Hc | Hc]; apply andb_prop in Hc as [H1 H2];
    apply N.leb_le in H1, H2; lia.
Qed.

Section WithHash.
Context `{Sha256}.

Lemma timingSafeEqual_refl (a : list byte) : timingSafeEqual a a = Returned true.
Proof.
  unfold timingSafeEqual. rewrite Nat.eqb_refl. cbn [negb].
  now destruct (List.list_eq_dec Byte.byte_eq_dec a a).
Qed.

(** X3.  [verifyTokenHash] accepts a token against its own digest, and
    against any text that differs from the digest only in the case of its
    letters: the comparison is made on the decoded bytes, not on the text. *)
Theorem verifyTokenHash_accepts_own_digest (token storedHash : JsString) :
  verifyTokenHash token (hashToken token) = Returned true /\
  (List.map ascii_lower storedHash = List.map ascii_lower (hashToken token) ->
   verifyTokenHash token storedHash = Returned true).
Proof.
  unfold verifyTokenHash. split; [apply timingSafeEqual_refl |].
  intros Hsame.
  rewrite <- (buffer_from_hex_lower storedHash), Hsame, buffer_from_hex_lower.
  apply timingSafeEqual_refl.
Qed.

(** X4.  With SHA-256 digests (64 lower-case hexadecimal digits),
    [verifyTokenHash] on a stored text of 64 hexadecimal digits returns whether
    that text is the token's digest up to letter case; on a stored text shorter
    than 64 characters it does not return [false] but throws. *)
Theorem verifyTokenHash_on_stored_text (token storedHash : JsString) :
  (forall s, is_sha256_hex (sha256_hex s)) ->
  (length storedHash = 64%nat -> forallb hex_digit storedHash = true ->
   verifyTokenHash token storedHash =
   Returned (bool_decide (List.map ascii_lower storedHash = hashToken token))) /\
  ((length storedHash < 64)%nat -> threw (verifyTokenHash token storedHash)).
Proof.
  intros Hlaw. destruct (Hlaw token) as [Hlen Hdigits]. fold (hashToken token) in *.
  assert (Heven : Nat.Even 64) by (exists 32%nat; reflexivity).
  pose proof (buffer_from_hex_length (hashToken token) (lower_hex_is_hex _ Hdigits)) as H32.
  rewrite Hlen in H32. specialize (H32 Heven).
  unfold verifyTokenHash. split.
  - intros Hlen' Hhex'.
    pose proof (buffer_from_hex_length storedHash Hhex') as H32'.
    rewrite Hlen' in H32'. specialize (H32' Heven).
    unfold timingSafeEqual.
    replace (length (buffer_from_hex (hashToken token))
               =? length (buffer_from_hex storedHash))%nat with true
      by (symmetry; apply Nat.eqb_eq; lia).
    cbn [negb]. f_equal.
    destruct (List.list_eq_dec _ _ _) as [Heq | Hne]; symmetry.
    + apply bool_decide_eq_true.
      rewrite <- (lower_hex_fixed (hashToken token) Hdigits).
      symmetry. apply buffer_from_hex_inj; auto using lower_hex_is_hex.
      * congruence.
      * now rewrite Hlen.
    + apply bool_decide_eq_false. intros Heq. apply Hne.
      rewrite <- Heq. apply buffer_from_hex_lower.
  - intros Hshort.
    pose proof (buffer_from_hex_short storedHash) as Hs.
    unfold timingSafeEqual.
    replace (length (buffer_from_hex (hashToken token))
               =? length (buffer_from_hex storedHash))%nat with false
      by (symmetry; apply Nat.eqb_neq; lia).
    exact I.
Qed.

End WithHash.

Lemma hex_digest_law (s : JsString) : is_sha256_hex (HexDemo.hex_digest s).
Proof.
  unfold is_sha256_hex, HexDemo.hex_digest. split.
  - rewrite length_take, length_app, length_replicate. lia.
  - rewrite forallb_forall. intros c Hc.
    apply list_elem_of_In, elem_of_take in Hc as (i & Hc & _).
    apply list_elem_of_lookup_2, elem_of_app in Hc as [Hc | Hc].
    + apply list_elem_of_In in Hc. unfold HexDemo.hex_of_text in Hc.
      apply in_flat_map in Hc as (u & _ & Hc).
      assert (Hn : forall n, (n < 16)%N -> lower_hex_digit (HexDemo.nibble_digit n) = true).
      { intros n Hn.
        assert (Hall : forallb (fun n => lower_hex_digit (HexDemo.nibble_digit n))
                         (units_below 16) = true) by (vm_compute; reflexivity).
        rewrite forallb_forall in Hall. apply Hall, CodecFacts.in_units_below. exact Hn. }
      destruct Hc as [<- | [<- | []]]; apply Hn, N.mod_lt; discriminate.
    + apply elem_of_replicate in Hc as [-> _]. reflexivity.
Qed.

Lemma verifyTokenHash_on_stored_text_witness :
  threw (verifyTokenHash (H := HexDemo.hex_digest) Demo.token (js "abcd")).
Proof.
  apply (verifyTokenHash_on_stored_text (H := HexDemo.hex_digest) Demo.token (js "abcd")
           hex_digest_law).
  cbn. lia.
Defined.

Example verifyTokenHash_garbage_tail :
  verifyTokenHash (H := HexDemo.hex_digest) Demo.token
    (hashToken (H := HexDemo.hex_digest) Demo.token ++ js "zz") = Returned true.
Proof. vm_compute. reflexivity. Qed.

End HashCheck.

(* ===================================================================== *)
(** * More on the lifecycle operations *)
(* ===================================================================== *)

Module LifecycleMore.
Import LifecycleFacts.

Lemma redeemed_only_refl (h : JsString) (d : Db) : redeemed_only h d d.
Proof.
  repeat split. intros k. destruct (oneTimeTokens d !! k); [now left | exact I].
Qed.

Lemma row_history_trans (h k : JsString) (r1 r2 r3 : TokenRow.t) :
  row_history h k r1 r2 -> row_history h k r2 r3 -> row_history h k r1 r3.
Proof.
  intros [-> | (Hk & Hu & now & ->)] H23; [exact H23 |].
  destruct H23 as [-> | (_ & Hu' & _)]; [| discriminate Hu'].
  right. eauto.
Qed.

Lemma redeemed_only_trans (h : JsString) (d1 d2 d3 : Db) :
  redeemed_only h d1 d2 -> redeemed_only h d2 d3 -> redeemed_only h d1 d3.
Proof.
  intros (Hu & Hs & H12) (Hu' & Hs' & H23).
  split; [congruence |]. split; [congruence |].
  intros k. specialize (H12 k). specialize (H23 k).
  destruct (oneTimeTokens d1 !! k), (oneTimeTokens d2 !! k), (oneTimeTokens d3 !! k);
    try contradiction; eauto using row_history_trans.
Qed.

(** The store after the consuming update of a redeemable row. *)
Lemma redeemed_only_consume (h : JsString) (now : Z) (d : Db) (r : TokenRow.t) :
  oneTimeTokens d !! h = Some r -> redeemable now r = true ->
  redeemed_only h d (with_tokens d (<[ h := consume now r ]> (oneTimeTokens d))).
Proof.
  intros Hrow Hred. split; [reflexivity |]. split; [reflexivity |].
  intros k. cbn [oneTimeTokens with_tokens].
  destruct (decide (k = h)) as [-> | Hk].
  - rewrite Hrow, lookup_insert_eq. right. split; [reflexivity |].
    unfold redeemable in Hred. apply andb_prop in Hred as [Hu _].
    apply bool_decide_eq_true in Hu. eauto.
  - rewrite lookup_insert_ne by auto.
    destruct (oneTimeTokens d !! k); [now left | exact I].
Qed.

(** The statement of the update, on any store. *)
Lemma update_consume_effect (h : JsString) (now : Z) (d : Db) :
  exists rows d',
    update_consume h now d = (Returned rows, d') /\ redeemed_only h d d' /\
    (rows = [] -> d' = d) /\
    (forall r rest, rows = r :: rest ->
       exists r0, oneTimeTokens d !! h = Some r0 /\ redeemable now r0 = true /\
                  r = consume now r0 /\ rest = [] /\
                  d' = with_tokens d (<[ h := consume now r0 ]> (oneTimeTokens d))).
Proof.
  rewrite update_consume_lookup.
  destruct (oneTimeTokens d !! h) as [r0 |] eqn:Hrow;
    [destruct (redeemable now r0) eqn:Hred |].
  - do 2 eexists. split; [reflexivity |].
    split; [now apply redeemed_only_consume |].
    split; [discriminate |]. intros r rest [= <- <-]. eauto 10.
  - do 2 eexists. split; [reflexivity |]. split; [apply redeemed_only_refl |].
    split; [reflexivity | discriminate].
  - do 2 eexists. split; [reflexivity |]. split; [apply redeemed_only_refl |].
    split; [reflexivity | discriminate].
Qed.

Section WithHash.
Context `{Sha256}.

(** What a call of [verifyAndConsumeToken] can do to the store, whatever
    the faults: nothing, or the one consuming update, and then it reports
    success. *)
Lemma verifyAndConsumeToken_effect (now : Z) (token : JsString) (w : World) :
  (db (verifyAndConsumeToken now token w).2 = db w /\
   forall res, (verifyAndConsumeToken now token w).1 = Returned res ->
               Result.success res = false) \/
  (exists r, Codec.validateTokenFormat token = true /\
             oneTimeTokens (db w) !! hashToken token = Some r /\
             redeemable now r = true /\
             (verifyAndConsumeToken now token w).1 = Returned (succeeded (TokenRow.userId r)) /\
             db (verifyAndConsumeToken now token w).2 =
               with_tokens (db w) (<[ hashToken token := consume now r ]>
                                     (oneTimeTokens (db w)))).
Proof.
  unfold verifyAndConsumeToken.
  destruct (Codec.validateTokenFormat token); cbn [negb];
    [| left; split; [reflexivity | now intros res [= <-]]].
  unfold try_catch, bind.
  destruct (query_cases (update_consume (hashToken token) now) w)
    as [(fs & _ & ->) | (_ & ->)];
    [left; split; [reflexivity | now intros res [= <-]] |].
  rewrite update_consume_lookup.
  destruct (oneTimeTokens (db w) !! hashToken token) as [r |] eqn:Hrow;
    [destruct (redeemable now r) eqn:Hred |]; cbn [fst snd].
  - right. exists r. repeat split; auto.
  - left.
    match goal with |- context [query ?q ?w1] =>
      destruct (query_cases q w1) as [(fs & _ & ->) | (_ & ->)] end;
      [split; [reflexivity | now intros res [= <-]] |].
    rewrite select_by_hash_lookup. cbn [fst snd db]. rewrite Hrow.
    destruct (TokenRow.used r); [| destruct (TokenRow.expiresAt r <=? now)];
      (split; [reflexivity | now intros res [= <-]]).
  - left.
    match goal with |- context [query ?q ?w1] =>
      destruct (query_cases q w1) as [(fs & _ & ->) | (_ & ->)] end;
      [split; [reflexivity | now intros res [= <-]] |].
    rewrite select_by_hash_lookup. cbn [fst snd db]. rewrite Hrow.
    split; [reflexivity | now intros res [= <-]].
Qed.

(** X5.  [verifyAndConsumeToken], whatever the store's faults, leaves the
    users, the sessions and the set of token keys as they are; a row keeps its
    [userId], [createdAt] and [expiresAt]; a used row is not touched; a row
    under another key than the token's digest is not touched; and a row that
    does change has become used at [now]. *)
Theorem redeem_changes_only_its_row (now : Z) (token : JsString) (w : World) :
  let d := db w in
  let d' := db (verifyAndConsumeToken now token w).2 in
  users d' = users d /\ sessions d' = sessions d /\
  (forall k, oneTimeTokens d !! k = None -> oneTimeTokens d' !! k = None) /\
  (forall k r, oneTimeTokens d !! k = Some r ->
     exists r', oneTimeTokens d' !! k = Some r' /\
       TokenRow.userId r' = TokenRow.userId r /\
       TokenRow.createdAt r' = TokenRow.createdAt r /\
       TokenRow.expiresAt r' = TokenRow.expiresAt r /\
       (TokenRow.used r = true -> r' = r) /\
       (k <> hashToken token -> r' = r) /\
       (r' <> r -> TokenRow.used r' = true /\ TokenRow.usedAt r' = Some now)).
Proof.
  cbv zeta.
  destruct (verifyAndConsumeToken_effect now token w)
    as [[-> _] | (r0 & _ & Hrow & Hred & _ & ->)].
  - repeat split; auto. intros k r Hr. exists r. repeat split; auto. congruence.
  - cbn [users sessions oneTimeTokens with_tokens].
    unfold redeemable in Hred. apply andb_prop in Hred as [Hu _].
    apply bool_decide_eq_true in Hu.
    split; [reflexivity |]. split; [reflexivity |]. split.
    + intros k Hk. rewrite lookup_insert_ne; [exact Hk | congruence].
    + intros k r Hr. destruct (decide (k = hashToken token)) as [-> | Hk].
      * rewrite lookup_insert_eq. rewrite Hrow in Hr. injection Hr as <-.
        exists (consume now r0). repeat split; auto; congruence.
      * rewrite lookup_insert_ne by auto. exists r. repeat split; auto; congruence.
Qed.

(** X6.  When the store answers, [checkTokenValidity] returns exactly what
    [verifyAndConsumeToken] would return at the same time on the same store:
    the same success and user, or the same error code and message. *)
Theorem check_predicts_redeem (now : Z) (token : JsString) (w : World) :
  fault_free (faults w) ->
  (checkTokenValidity now token w).1 = (verifyAndConsumeToken now token w).1.
Proof.
  intros Hcalm.
  destruct (Codec.validateTokenFormat token) eqn:Hvalid.
  - rewrite checkTokenValidity_calm by (auto using fault_free_hd).
    rewrite verifyAndConsumeToken_calm by assumption.
    destruct (oneTimeTokens (db w) !! hashToken token) as [r |]; [| reflexivity].
    unfold redeemable.
    destruct (TokenRow.used r); cbn [bool_decide andb]; [reflexivity |].
    rewrite bool_decide_eq_true_2 by reflexivity. cbn [andb].
    rewrite Z.leb_antisym. now destruct (now <? TokenRow.expiresAt r).
  - unfold checkTokenValidity, verifyAndConsumeToken. now rewrite Hvalid.
Qed.

(** X7.  When the store answers, [verifyAndConsumeToken] reports success
    exactly when the token is well formed and its digest has a row that is
    unused and expires strictly after [now]; at [now = expiresAt] an unused
    token is already [EXPIRED]. *)
Theorem redeem_succeeds_iff (now : Z) (token : JsString) (w : World) :
  fault_free (faults w) ->
  ((exists res, (verifyAndConsumeToken now token w).1 = Returned res /\
                Result.success res = true) <->
   (Codec.validateTokenFormat token = true /\
    exists r, oneTimeTokens (db w) !! hashToken token = Some r /\
              TokenRow.used r = false /\ now < TokenRow.expiresAt r)) /\
  (Codec.validateTokenFormat token = true ->
   forall r, oneTimeTokens (db w) !! hashToken token = Some r ->
             TokenRow.used r = false -> TokenRow.expiresAt r = now ->
             (verifyAndConsumeToken now token w).1 =
             Returned (failed EXPIRED "Token has expired")).
Proof.
  intros Hcalm.
  assert (Hred : forall r, redeemable now r = true <->
                           TokenRow.used r = false /\ now < TokenRow.expiresAt r).
  { intros r. unfold redeemable.
    rewrite andb_true_iff, bool_decide_eq_true, Z.ltb_lt. reflexivity. }
  split.
  - destruct (Codec.validateTokenFormat token) eqn:Hvalid.
    + rewrite verifyAndConsumeToken_calm by assumption.
      destruct (oneTimeTokens (db w) !! hashToken token) as [r |].
      * destruct (redeemable now r) eqn:Er.
        -- split; [intros _ | intros _; eexists; split; reflexivity].
           split; [reflexivity |]. exists r. split; [reflexivity |]. now apply Hred.
        -- split.
           ++ destruct (TokenRow.used r); intros (res & [= <-] & Hs); discriminate Hs.
           ++ intros (_ & r' & [= <-] & Hr'). apply Hred in Hr'. congruence.
      * split.
        -- intros (res & [= <-] & Hs). discriminate Hs.
        -- intros (_ & r' & Hr' & _). discriminate Hr'.
    + unfold verifyAndConsumeToken. rewrite Hvalid. cbn [negb ret fst]. split.
      * intros (res & [= <-] & Hs). discriminate Hs.
      * intros [Hv _]. discriminate Hv.
  - intros Hvalid r Hrow Hused Hexp.
    rewrite verifyAndConsumeToken_calm by assumption. rewrite Hrow.
    assert (Er : redeemable now r = false).
    { destruct (redeemable now r) eqn:Er; [| reflexivity].
      apply Hred in Er. lia. }
    now rewrite Er, Hused.
Qed.

Lemma verifyAndConsumeToken_returns (now : Z) (token : JsString) (w : World) :
  exists res, (verifyAndConsumeToken now token w).1 = Returned res.
Proof.
  unfold verifyAndConsumeToken.
  destruct (Codec.validateTokenFormat token); cbn [negb]; [| eexists; reflexivity].
  unfold try_catch, bind.
  destruct (query (update_consume (hashToken token) now) w) as [[[| c rows] | e] w1];
    try (eexists; reflexivity).
  destruct (query (select_by_hash (hashToken token)) w1) as [[[| r rows] | e] w2];
    try (eexists; reflexivity).
  destruct (TokenRow.used r); [| destruct (TokenRow.expiresAt r <=? now)];
    eexists; reflexivity.
Qed.

(** X19.  [verifyAndConsumeToken] always returns.  After a success the
    digest's row, which was unused and unexpired and belongs to the reported
    user, has [used = true] and [usedAt = now].  After a failure that names
    its reason ([INVALID_FORMAT], [NOT_FOUND], [ALREADY_USED] or [EXPIRED])
    the store is as before: such a report is only made when no statement was
    sent or the update matched no row.  Nothing is said of the store after a
    [DATABASE_ERROR]. *)
Theorem redeem_report_matches_store (now : Z) (token : JsString) (w : World) :
  exists res,
    (verifyAndConsumeToken now token w).1 = Returned res /\
    (Result.success res = false ->
     Result.error res <> Some DATABASE_ERROR ->
     db (verifyAndConsumeToken now token w).2 = db w) /\
    (Result.success res = true ->
     exists r,
       oneTimeTokens (db w) !! hashToken token = Some r /\
       TokenRow.used r = false /\ now < TokenRow.expiresAt r /\
       Result.userId res = Some (TokenRow.userId r) /\
       oneTimeTokens (db (verifyAndConsumeToken now token w).2) !! hashToken token =
         Some (consume now r)).
Proof.
  destruct (verifyAndConsumeToken_returns now token w) as [res Hres].
  exists res. split; [exact Hres |].
  destruct (verifyAndConsumeToken_effect now token w)
    as [[Hdb Hfail] | (r & _ & Hrow & Hred & Hres' & Hdb)].
  - split; [auto |]. intros Hs. rewrite (Hfail res Hres) in Hs. discriminate Hs.
  - rewrite Hres' in Hres. injection Hres as <-.
    split; [discriminate |]. intros _. exists r.
    unfold redeemable in Hred. apply andb_prop in Hred as [Hu Hlt].
    apply bool_decide_eq_true in Hu. apply Z.ltb_lt in Hlt.
    repeat split; auto. rewrite Hdb. cbn [oneTimeTokens with_tokens].
    apply lookup_insert_eq.
Qed.

(** X20.  Redeeming one token does not change what a redeem of a token with
    another digest returns: whatever the first call did and whatever faults it
    met, the second call (the store answering) returns what it would have
    returned without the first. *)
Theorem redeem_other_token_unaffected (now now' : Z) (token other : JsString)
    (w : World) (fs : list bool) :
  hashToken token <> hashToken other ->
  fault_free fs ->
  (verifyAndConsumeToken now' other
     {| db := db (verifyAndConsumeToken now token w).2; faults := fs |}).1 =
  (verifyAndConsumeToken now' other {| db := db w; faults := fs |}).1.
Proof.
  intros Hne Hfs.
  destruct (Codec.validateTokenFormat other) eqn:Hvalid.
  - destruct (verifyAndConsumeToken_effect now token w)
      as [[-> _] | (r & _ & _ & _ & _ & ->)]; [reflexivity |].
    rewrite (verifyAndConsumeToken_calm now' other {| db := db w; faults := fs |})
      by assumption.
    rewrite verifyAndConsumeToken_calm by assumption. cbn [db].
    cbn [oneTimeTokens with_tokens]. rewrite lookup_insert_ne by exact Hne.
    destruct (oneTimeTokens (db w) !! hashToken other) as [r' |]; [| reflexivity].
    destruct (redeemable now' r'); [reflexivity |].
    now destruct (TokenRow.used r').
  - unfold verifyAndConsumeToken. rewrite Hvalid. reflexivity.
Qed.

(** X18.  A token issued at [nowMs] and stored is redeemable exactly before
    [nowMs] plus its lifetime, one hour when none is given: the first redeem
    succeeds at any earlier time and reports [EXPIRED] from that instant on.
    A lifetime of zero is taken as given, not replaced by the default, so such a
    token is [EXPIRED] from the start. *)
Theorem issued_token_window (randomBytes : list byte) (nowMs userId : Z)
    (expirationMs : option Z) (td : TokenData.t) (dbNow now : Z) (w0 w1 : World) :
  generateTokenForUser randomBytes nowMs userId expirationMs = Returned td ->
  storeToken dbNow (TokenData.hash td) (TokenData.userId td) (TokenData.expiresAt td) w0
    = (Returned true, w1) ->
  fault_free (faults w1) ->
  TokenData.expiresAt td =
    nowMs + match expirationMs with Some ms => ms | None => 3600000 end /\
  (verifyAndConsumeToken now (TokenData.token td) w1).1 =
    Returned (if now <? TokenData.expiresAt td
              then succeeded userId
              else failed EXPIRED "Token has expired").
Proof.
  intros Hgen Hstore Hcalm.
  apply generateTokenForUser_inv in Hgen as (Hvalid & Hhash & Huser & Hexp).
  split; [rewrite Hexp; now destruct expirationMs |].
  rewrite Hhash, Huser in Hstore.
  apply storeToken_true in Hstore as [Hrow _].
  rewrite verifyAndConsumeToken_calm by assumption.
  rewrite Hrow. unfold redeemable. cbn [fresh_row TokenRow.used TokenRow.expiresAt TokenRow.userId].
  rewrite bool_decide_eq_true_2 by reflexivity. cbn [andb].
  now destruct (now <? TokenData.expiresAt td).
Qed.

End WithHash.

Lemma redeem_other_token_unaffected_witness :
  (verifyAndConsumeToken (H := Demo.plain_digest) 2001 (js "zzzzzzzzzzzzzzzz")
     {| db := db (verifyAndConsumeToken (H := Demo.plain_digest) 2000 Demo.token
                    Demo.world1).2;
        faults := [] |}).1 =
  (verifyAndConsumeToken (H := Demo.plain_digest) 2001 (js "zzzzzzzzzzzzzzzz")
     {| db := db Demo.world1; faults := [] |}).1.
Proof.
  apply (redeem_other_token_unaffected (H := Demo.plain_digest) 2000 2001 Demo.token
           (js "zzzzzzzzzzzzzzzz") Demo.world1 []).
  - intros Heq. vm_compute in Heq. discriminate Heq.
  - constructor.
Defined.

Lemma check_predicts_redeem_witness :
  (checkTokenValidity (H := Demo.plain_digest) 2000 Demo.token Demo.world1).1 =
  (verifyAndConsumeToken (H := Demo.plain_digest) 2000 Demo.token Demo.world1).1.
Proof.
  apply (check_predicts_redeem (H := Demo.plain_digest) 2000 Demo.token Demo.world1).
  vm_compute. repeat constructor.
Defined.

Lemma redeem_succeeds_iff_witness :
  exists res,
    (verifyAndConsumeToken (H := Demo.plain_digest) 2000 Demo.token Demo.world1).1
      = Returned res /\ Result.success res = true.
Proof.
  apply (redeem_succeeds_iff (H := Demo.plain_digest) 2000 Demo.token Demo.world1).
  - vm_compute. repeat constructor.
  - split; [reflexivity |]. exists (fresh_row 1000 7 5000).
    split; [vm_compute; reflexivity |]. split; [reflexivity | cbn; lia].
Defined.

Lemma issued_token_window_witness :
  TokenData.expiresAt Demo.issued = 1000 + 3600000 /\
  (verifyAndConsumeToken (H := Demo.plain_digest) 3601000 (TokenData.token Demo.issued)
     (storeToken 1000 (TokenData.hash Demo.issued) 7 3601000 Demo.world0).2).1 =
    Returned (if 3601000 <? TokenData.expiresAt Demo.issued
              then succeeded 7
              else failed EXPIRED "Token has expired").
Proof.
  apply (issued_token_window (H := Demo.plain_digest) Demo.random12 1000 7 None
           Demo.issued 1000 3601000 Demo.world0
           (storeToken 1000 (TokenData.hash Demo.issued) 7 3601000 Demo.world0).2).
  - vm_compute. reflexivity.
  - vm_compute. reflexivity.
  - vm_compute. repeat constructor.
Defined.

(** [insert_token], case by case. *)
Lemma insert_token_spec (h : JsString) (row : TokenRow.t) (d : Db) :
  insert_token h row d =
  if decide ((length h <= 64)%nat /\ TokenRow.userId row ∈ users d /\
             oneTimeTokens d !! h = None)
  then (Returned tt, with_tokens d (<[ h := row ]> (oneTimeTokens d)))
  else (Threw DriverError, d).
Proof.
  unfold insert_token.
  destruct (Nat.leb_spec (length h) 64) as [Hlen | Hlen]; cbn [negb].
  - destruct (bool_decide_reflect (TokenRow.userId row ∈ users d)) as [Hu | Hu];
      cbn [negb].
    + destruct (oneTimeTokens d !! h) eqn:Hrow.
      * rewrite decide_False; [reflexivity |]. intros (_ & _ & [=]).
      * rewrite decide_True; auto.
    + rewrite decide_False; [reflexivity | tauto].
  - rewrite decide_False; [reflexivity | lia].
Qed.

(** X8.  For a digest of at most 64 characters, as every SHA-256 digest
    is, [storeToken] never throws.  It returns [true] exactly when the round
    trip does not fail, the user exists and no row is stored under the digest;
    the store then has the new unused row and is otherwise as before.  When a
    row is already stored under the digest, used or not, or the user does not
    exist, it returns [false] and the store is unchanged, whether the round
    trip fails or not: a stored row is never overwritten.  Nothing is said of
    the store after a [false] that only a failed round trip explains. *)
Theorem storeToken_never_overwrites (dbNow : Z) (tokenHash : JsString)
    (userId expiresAt : Z) (w : World) :
  (length tokenHash <= 64)%nat ->
  exists stored,
    (storeToken dbNow tokenHash userId expiresAt w).1 = Returned stored /\
    (stored = true <->
     List.hd false (faults w) = false /\
     userId ∈ users (db w) /\ oneTimeTokens (db w) !! tokenHash = None) /\
    (stored = true ->
     db (storeToken dbNow tokenHash userId expiresAt w).2 =
     with_tokens (db w)
       (<[ tokenHash := fresh_row dbNow userId expiresAt ]> (oneTimeTokens (db w)))) /\
    (is_Some (oneTimeTokens (db w) !! tokenHash) \/ userId ∉ users (db w) ->
     stored = false /\
     db (storeToken dbNow tokenHash userId expiresAt w).2 = db w).
Proof.
  intros Hlen.
  unfold storeToken, try_catch, bind. fold (fresh_row dbNow userId expiresAt).
  destruct (query_cases (insert_token tokenHash (fresh_row dbNow userId expiresAt)) w)
    as [(fs & Hf & ->) | (Hhd & ->)].
  - exists false. cbn [fst snd db]. rewrite Hf. cbn [List.hd].
    repeat split; try discriminate; auto. intros (Hh & _). discriminate Hh.
  - rewrite insert_token_spec. cbn [TokenRow.userId fresh_row].
    destruct (decide _) as [Hok | Hno]; cbn [fst snd db ret].
    + exists true. split; [reflexivity |]. split; [tauto |].
      split; [reflexivity |].
      destruct Hok as (_ & Huser & Hnone).
      intros [[r Hr] | Hout]; [congruence | contradiction].
    + exists false. split; [reflexivity |].
      split; [split; [discriminate | tauto] |].
      split; [discriminate | auto].
Qed.

Lemma storeToken_never_overwrites_witness :
  (length (hashToken (H := Demo.plain_digest) Demo.token) <= 64)%nat /\
  exists stored,
    (storeToken 3000 (hashToken (H := Demo.plain_digest) Demo.token) 7 9000 Demo.world2).1
      = Returned stored /\
    stored = false /\
    db (storeToken 3000 (hashToken (H := Demo.plain_digest) Demo.token) 7 9000
          Demo.world2).2 = db Demo.world2.
Proof.
  split; [cbn; lia |].
  destruct (storeToken_never_overwrites 3000 (hashToken (H := Demo.plain_digest) Demo.token)
              7 9000 Demo.world2) as (stored & Hret & _ & _ & Hkeep).
  - cbn. lia.
  - exists stored. split; [exact Hret |].
    apply Hkeep. left. vm_compute. eexists. reflexivity.
Defined.

End LifecycleMore.


(* ===================================================================== *)
(** * More on the statistics *)
(* ===================================================================== *)

Module StatsMore.
Import LifecycleFacts.

Section Counting.
Context {K : Type} `{Countable K} {R : Type}.

Lemma count_insert_new (w : K -> R -> bool) (t : gmap K R) (k : K) (x : R) :
  t !! k = None ->
  Sql.count w (<[ k := x ]> t) = (Nat.b2n (w k x) + Sql.count w t)%nat.
Proof.
  intros Hk. unfold Sql.count, Sql.rows_where.
  rewrite map_filter_insert. cbn [fst snd].
  destruct (decide (w k x = true)) as [Hw | Hw].
  - rewrite Hw, map_size_insert_None; [reflexivity |].
    apply map_lookup_filter_None. now left.
  - rewrite delete_id by exact Hk. now destruct (w k x).
Qed.

(** Replacing a row moves it between the classes it was and is in. *)
Lemma count_replace (w : K -> R -> bool) (t : gmap K R) (k : K) (x x' : R) :
  t !! k = Some x ->
  (Sql.count w (<[ k := x' ]> t) + Nat.b2n (w k x) =
   Sql.count w t + Nat.b2n (w k x'))%nat.
Proof.
  intros Hk.
  rewrite <- (insert_delete_id t k x Hk) at 2.
  rewrite <- (insert_delete_eq t k x').
  rewrite !count_insert_new by apply lookup_delete_eq. lia.
Qed.

(** Three classes that every row is in exactly one of split the table. *)
Lemma count_partition (p q r : K -> R -> bool) (t : gmap K R) :
  (forall k x, (Nat.b2n (p k x) + Nat.b2n (q k x) + Nat.b2n (r k x) = 1)%nat) ->
  (Sql.count p t + Sql.count q t + Sql.count r t = size t)%nat.
Proof.
  intros Hone. induction t as [| k x t Hk IH] using map_ind.
  - unfold Sql.count, Sql.rows_where.
    now rewrite !map_filter_empty, map_size_empty.
  - rewrite !count_insert_new, map_size_insert_None by exact Hk.
    specialize (Hone k x). lia.
Qed.

End Counting.

Lemma getTokenStats_calm (dbNow userId : Z) (w : World) :
  List.hd false (faults w) = false ->
  (getTokenStats dbNow userId w).1 =
  Returned
    {| Stats.total := Z.of_nat (size (rows_of userId (db w)));
       Stats.used := Z.of_nat (Sql.count (fun _ r => TokenRow.used r) (rows_of userId (db w)));
       Stats.expired := Z.of_nat (Sql.count (fun _ r =>
           (TokenRow.expiresAt r <=? dbNow) && negb (TokenRow.used r)) (rows_of userId (db w)));
       Stats.active := Z.of_nat (Sql.count (fun _ r =>
           (dbNow <? TokenRow.expiresAt r) && negb (TokenRow.used r)) (rows_of userId (db w))) |}.
Proof.
  intros Hhd. unfold getTokenStats, try_catch, bind.
  rewrite query_calm by exact Hhd. reflexivity.
Qed.

(** X9.  [getTokenStats] never throws and never writes; in what it returns
    every count is non-negative and [total = used + expired + active]: each of
    the user's rows is counted in exactly one of the three classes. *)
Theorem stats_partition (dbNow userId : Z) (w : World) :
  exists st,
    (getTokenStats dbNow userId w).1 = Returned st /\
    Stats.total st = Stats.used st + Stats.expired st + Stats.active st /\
    0 <= Stats.used st /\ 0 <= Stats.expired st /\ 0 <= Stats.active st /\
    Stats.total st <= Z.of_nat (size (oneTimeTokens (db w))) /\
    db (getTokenStats dbNow userId w).2 = db w.
Proof.
  unfold getTokenStats, try_catch, bind.
  destruct (query_cases (select_stats dbNow userId) w) as [(fs & _ & ->) | (_ & ->)].
  - eexists. split; [reflexivity |]. cbn. repeat split; lia.
  - unfold select_stats. cbn [fst snd ret db]. eexists. split; [reflexivity |].
    cbn [Stats.total Stats.used Stats.expired Stats.active].
    set (mine := Sql.rows_where _ (oneTimeTokens (db w))).
    assert (Hsplit :
      (Sql.count (fun (_ : JsString) r => TokenRow.used r) mine +
       Sql.count (fun _ r => (TokenRow.expiresAt r <=? dbNow)%Z && negb (TokenRow.used r)) mine +
       Sql.count (fun _ r => (dbNow <? TokenRow.expiresAt r)%Z && negb (TokenRow.used r)) mine
       = size mine)%nat).
    { apply count_partition. intros _ r. destruct (TokenRow.used r); cbn;
        rewrite ?andb_false_r, ?andb_true_r; [reflexivity |].
      rewrite Z.leb_antisym. now destruct (dbNow <? TokenRow.expiresAt r). }
    assert (Hsub : (size mine <= size (oneTimeTokens (db w)))%nat).
    { subst mine. unfold Sql.rows_where.
      apply map_subseteq_size, map_filter_subseteq. }
    repeat split; lia.
Qed.

(** X21.  A successful [storeToken] adds one token to its user's
    statistics: [total] grows by one, [used] stays, and the new token counts as
    [active] when the store's clock is before its expiry and as [expired]
    otherwise; the statistics of every other user stay as they are. *)
Theorem stats_after_store (dbNow dbNow' : Z) (tokenHash : JsString)
    (userId expiresAt other : Z) (w w1 : World) (st st' : Stats.t) :
  storeToken dbNow tokenHash userId expiresAt w = (Returned true, w1) ->
  (getTokenStats dbNow' userId {| db := db w; faults := [] |}).1 = Returned st ->
  (getTokenStats dbNow' userId {| db := db w1; faults := [] |}).1 = Returned st' ->
  Stats.total st' = Stats.total st + 1 /\
  Stats.used st' = Stats.used st /\
  Stats.active st' = Stats.active st + (if dbNow' <? expiresAt then 1 else 0) /\
  Stats.expired st' = Stats.expired st + (if dbNow' <? expiresAt then 0 else 1) /\
  (other <> userId ->
   (getTokenStats dbNow' other {| db := db w1; faults := [] |}).1 =
   (getTokenStats dbNow' other {| db := db w; faults := [] |}).1).
Proof.
  intros Hstore Hst Hst'.
  destruct (storeToken_cases dbNow tokenHash userId expiresAt w)
    as [(w' & Hfalse & _) | (_ & Hnone & _ & Htrue)].
  { rewrite Hfalse in Hstore. discriminate Hstore. }
  rewrite Htrue in Hstore. injection Hstore as <-.
  rewrite getTokenStats_calm in Hst, Hst' by reflexivity.
  injection Hst as <-. injection Hst' as <-.
  cbn [Stats.total Stats.used Stats.expired Stats.active db].
  assert (Hmine : rows_of userId (db w) !! tokenHash = None).
  { unfold rows_of, Sql.rows_where. apply map_lookup_filter_None. now left. }
  assert (Hmine' : rows_of userId
                     (with_tokens (db w) (<[ tokenHash := fresh_row dbNow userId expiresAt ]>
                                            (oneTimeTokens (db w))))
                   = <[ tokenHash := fresh_row dbNow userId expiresAt ]> (rows_of userId (db w))).
  { unfold rows_of, Sql.rows_where. cbn [oneTimeTokens with_tokens].
    apply map_filter_insert_True. cbn. apply Z.eqb_refl. }
  rewrite Hmine'. rewrite !count_insert_new, map_size_insert_None by exact Hmine.
  cbn [fresh_row TokenRow.used TokenRow.expiresAt negb].
  rewrite !andb_true_r, Z.leb_antisym.
  split; [lia |]. split; [cbn; lia |].
  split; [destruct (dbNow' <? expiresAt); cbn; lia |].
  split; [destruct (dbNow' <? expiresAt); cbn; lia |].
  intros Hother. rewrite !getTokenStats_calm by reflexivity. cbn [db].
  assert (Hsame : rows_of other
                    (with_tokens (db w) (<[ tokenHash := fresh_row dbNow userId expiresAt ]>
                                           (oneTimeTokens (db w))))
                  = rows_of other (db w)).
  { unfold rows_of, Sql.rows_where. cbn [oneTimeTokens with_tokens].
    rewrite map_filter_insert_False.
    - now rewrite delete_id.
    - cbn. intros Heq. apply Z.eqb_eq in Heq. congruence. }
  now rewrite Hsame.
Qed.

Lemma stats_after_store_witness :
  let st := {| Stats.total := 0; Stats.used := 0; Stats.expired := 0; Stats.active := 0 |} in
  let st' := {| Stats.total := 1; Stats.used := 0; Stats.expired := 0; Stats.active := 1 |} in
  Stats.total st' = Stats.total st + 1 /\ Stats.used st' = Stats.used st.
Proof.
  cbv zeta.
  destruct (stats_after_store 1000 2000 (hashToken (H := Demo.plain_digest) Demo.token)
              7 5000 8 Demo.world0 Demo.world1
              {| Stats.total := 0; Stats.used := 0; Stats.expired := 0; Stats.active := 0 |}
              {| Stats.total := 1; Stats.used := 0; Stats.expired := 0; Stats.active := 1 |})
    as (Ht & Hu & _).
  - vm_compute. reflexivity.
  - vm_compute. reflexivity.
  - vm_compute. reflexivity.
  - split; [exact Ht | exact Hu].
Defined.

Section WithHash.
Context `{Sha256}.

(** X10.  A successful redemption moves one token of its owner from
    unused to used in the statistics: [total] stays, [used] grows by one, and
    [expired + active] shrinks by one ([active], when the store's clock is
    before the token's expiry). *)
Theorem stats_after_redeem (now dbNow : Z) (token : JsString) (w : World)
    (res : TokenVerificationResult) (uid : Z) (st st' : Stats.t) :
  (verifyAndConsumeToken now token w).1 = Returned res ->
  Result.success res = true ->
  Result.userId res = Some uid ->
  (getTokenStats dbNow uid {| db := db w; faults := [] |}).1 = Returned st ->
  (getTokenStats dbNow uid
     {| db := db (verifyAndConsumeToken now token w).2; faults := [] |}).1 = Returned st' ->
  Stats.total st' = Stats.total st /\
  Stats.used st' = Stats.used st + 1 /\
  Stats.expired st' + Stats.active st' = Stats.expired st + Stats.active st - 1 /\
  (forall r, oneTimeTokens (db w) !! hashToken token = Some r ->
             dbNow < TokenRow.expiresAt r ->
             Stats.active st' = Stats.active st - 1 /\ Stats.expired st' = Stats.expired st).
Proof.
  intros Hres Hsucc Huid Hst Hst'.
  destruct (LifecycleMore.verifyAndConsumeToken_effect now token w)
    as [[_ Hfail] | (r & _ & Hrow & Hred & Hres' & Hdb)].
  { rewrite (Hfail res Hres) in Hsucc. discriminate Hsucc. }
  rewrite Hres' in Hres. injection Hres as <-. cbn in Huid. injection Huid as <-.
  rewrite getTokenStats_calm in Hst, Hst' by reflexivity.
  injection Hst as <-. injection Hst' as <-.
  cbn [Stats.total Stats.used Stats.expired Stats.active db].
  rewrite Hdb. unfold redeemable in Hred. apply andb_prop in Hred as [Hu _].
  apply bool_decide_eq_true in Hu.
  assert (Hmine : rows_of (TokenRow.userId r) (db w) !! hashToken token = Some r).
  { unfold rows_of, Sql.rows_where. apply map_lookup_filter_Some.
    split; [exact Hrow |]. cbn. apply Z.eqb_refl. }
  assert (Hmine' : rows_of (TokenRow.userId r)
                     (with_tokens (db w) (<[ hashToken token := consume now r ]>
                                            (oneTimeTokens (db w))))
                   = <[ hashToken token := consume now r ]> (rows_of (TokenRow.userId r) (db w))).
  { unfold rows_of, Sql.rows_where. cbn [oneTimeTokens with_tokens].
    apply map_filter_insert_True. cbn. apply Z.eqb_refl. }
  rewrite Hmine'.
  set (mine := rows_of (TokenRow.userId r) (db w)) in *.
  pose proof (count_replace (fun _ x => TokenRow.used x) mine _ r (consume now r) Hmine) as Cu.
  pose proof (count_replace (fun _ x => (TokenRow.expiresAt x <=? dbNow) && negb (TokenRow.used x))
                mine _ r (consume now r) Hmine) as Ce.
  pose proof (count_replace (fun _ x => (dbNow <? TokenRow.expiresAt x) && negb (TokenRow.used x))
                mine _ r (consume now r) Hmine) as Ca.
  cbn [consume TokenRow.used TokenRow.expiresAt] in Cu, Ce, Ca.
  rewrite Hu in Cu, Ce, Ca. rewrite ?andb_false_r, ?andb_true_r in Ce, Ca.
  cbn [Nat.b2n negb] in Cu, Ce, Ca.
  rewrite (map_size_insert_Some _ _ mine) by (rewrite Hmine; eauto).
  assert (Hexcl : (Nat.b2n (TokenRow.expiresAt r <=? dbNow)%Z +
                   Nat.b2n (dbNow <? TokenRow.expiresAt r)%Z = 1)%nat).
  { rewrite Z.leb_antisym. now destruct (dbNow <? TokenRow.expiresAt r). }
  split; [reflexivity |]. split; [lia |]. split; [lia |].
  intros r' Hr' Hlt. rewrite Hrow in Hr'. injection Hr' as <-.
  apply Z.ltb_lt in Hlt. rewrite Hlt in *. cbn [Nat.b2n] in *. lia.
Qed.

End WithHash.

Lemma stats_after_redeem_witness :
  let st := {| Stats.total := 1; Stats.used := 0; Stats.expired := 0; Stats.active := 1 |} in
  let st' := {| Stats.total := 1; Stats.used := 1; Stats.expired := 0; Stats.active := 0 |} in
  Stats.total st' = Stats.total st /\ Stats.used st' = Stats.used st + 1.
Proof.
  cbv zeta.
  destruct (stats_after_redeem (H := Demo.plain_digest) 2000 2000 Demo.token Demo.world1
              (succeeded 7) 7
              {| Stats.total := 1; Stats.used := 0; Stats.expired := 0; Stats.active := 1 |}
              {| Stats.total := 1; Stats.used := 1; Stats.expired := 0; Stats.active := 0 |})
    as (Ht & Hu & _).
  - vm_compute. reflexivity.
  - reflexivity.
  - reflexivity.
  - vm_compute. reflexivity.
  - vm_compute. reflexivity.
  - split; [exact Ht | exact Hu].
Defined.

End StatsMore.

(* ===================================================================== *)
(** * More on the retention sweep *)
(* ===================================================================== *)

Module SweepMore.
Import LifecycleFacts SweepTheorems.

(** Where a sweep can leave the store, whatever the faults: after none,
    one, two or all three of its passes. *)
Lemma sweep_stops_between_passes (now : Z) (w : World) :
  let d := db w in
  let d' := db (cleanupExpiredTokensAndSessions now w).2 in
  users d' = users d /\
  ((oneTimeTokens d' = oneTimeTokens d /\ sessions d' = sessions d) \/
   (oneTimeTokens d' = pass1 now (oneTimeTokens d) /\ sessions d' = sessions d) \/
   (oneTimeTokens d' = pass1 now (oneTimeTokens d) /\
    sessions d' = pass2 now (sessions d)) \/
   (oneTimeTokens d' = pass13 now (oneTimeTokens d) /\
    sessions d' = pass2 now (sessions d))).
Proof.
  cbv zeta. unfold_sweep.
  match goal with |- context [query ?q w] =>
    destruct (query_cases q w) as [(fs & _ & ->) | (_ & ->)] end;
    [cbn; auto |].
  rewrite delete_tokens_eq. cbn [fst snd].
  match goal with |- context [query ?q ?w1] =>
    destruct (query_cases q w1) as [(fs & _ & ->) | (_ & ->)] end;
    [cbn; auto |].
  rewrite delete_sessions_eq. cbn [fst snd db sessions with_tokens].
  match goal with |- context [query ?q ?w1] =>
    destruct (query_cases q w1) as [(fs & _ & ->) | (_ & ->)] end;
    [cbn; auto 6 |].
  rewrite delete_tokens_eq. cbn. auto 6.
Qed.

Lemma pass1_lookup (now : Z) (t : gmap JsString TokenRow.t) k r :
  pass1 now t !! k = Some r <-> t !! k = Some r /\ ~ TokenRow.expiresAt r < now.
Proof.
  unfold pass1. rewrite SqlFacts.delete_lookup. unfold token_expired.
  rewrite Z.ltb_ge. split; intros [Hr He]; (split; [exact Hr | lia]).
Qed.

Lemma pass13_lookup (now : Z) (t : gmap JsString TokenRow.t) k r :
  pass13 now t !! k = Some r <->
  t !! k = Some r /\ ~ TokenRow.expiresAt r < now /\
  (forall u, TokenRow.usedAt r = Some u -> ~ u < now - thirty_days).
Proof.
  unfold pass13. rewrite SqlFacts.delete_lookup, pass1_lookup. unfold old_used.
  split.
  - intros [[Hr He] Ho]. repeat split; auto. intros u Hu Hlt.
    rewrite Hu in Ho. apply Z.ltb_ge in Ho. lia.
  - intros (Hr & He & Ho). repeat split; auto.
    destruct (TokenRow.usedAt r) as [u |]; [| reflexivity].
    apply Z.ltb_ge. specialize (Ho u eq_refl). lia.
Qed.

Lemma pass2_lookup (now : Z) (s : gmap JsString SessionRow.t) k x :
  pass2 now s !! k = Some x <-> s !! k = Some x /\ ~ SessionRow.expiresAt x < now.
Proof.
  unfold pass2. rewrite SqlFacts.delete_lookup. unfold session_expired.
  rewrite Z.ltb_ge. split; intros [Hr He]; (split; [exact Hr | lia]).
Qed.

(** X11.  Whatever the store's faults, the sweep only deletes: a token row
    or session that is there afterwards was there before, unchanged, and the
    users are untouched.  A token row survives whenever its [expiresAt] is not
    before [now] and it was not used more than 30 days before [now]; a session
    survives whenever its [expiresAt] is not before [now]. *)
Theorem sweep_only_deletes_stale (now : Z) (w : World) :
  let d := db w in
  let d' := db (cleanupExpiredTokensAndSessions now w).2 in
  users d' = users d /\
  (forall k r, oneTimeTokens d' !! k = Some r -> oneTimeTokens d !! k = Some r) /\
  (forall k x, sessions d' !! k = Some x -> sessions d !! k = Some x) /\
  (forall k r, oneTimeTokens d !! k = Some r ->
     now <= TokenRow.expiresAt r ->
     (forall u, TokenRow.usedAt r = Some u -> now - 30 * 24 * 60 * 60 * 1000 <= u) ->
     oneTimeTokens d' !! k = Some r) /\
  (forall k x, sessions d !! k = Some x ->
     now <= SessionRow.expiresAt x -> sessions d' !! k = Some x).
Proof.
  cbv zeta. destruct (sweep_stops_between_passes now w) as [Hu Hcases].
  split; [exact Hu |]. fold thirty_days.
  destruct Hcases as [[-> ->] | [[-> ->] | [[-> ->] | [-> ->]]]];
    repeat split; intros k r;
    rewrite ?pass1_lookup, ?pass13_lookup, ?pass2_lookup;
    try tauto; intros; repeat split; auto; try lia.
  all: intros u Hu' Hlt; match goal with Hold : forall _, _ -> _ |- _ =>
         specialize (Hold u Hu') end; lia.
Qed.

Lemma db_ext (d d' : Db) :
  users d = users d' -> oneTimeTokens d = oneTimeTokens d' ->
  sessions d = sessions d' -> d = d'.
Proof. destruct d, d'. cbn. now intros -> -> ->. Qed.

(** X12.  After a sweep at [now] and a later sweep at [now' >= now] that
    meets no fault, the store is the same as after that later sweep alone: it
    does not matter whether the earlier sweep ran to its end, stopped at a
    failing pass, or (for [now' = now]) was the same sweep. *)
Theorem later_sweep_completes (now now' : Z) (w : World) (fs : list bool) :
  now <= now' ->
  fault_free fs ->
  let first := cleanupExpiredTokensAndSessions now w in
  let again := cleanupExpiredTokensAndSessions now' {| db := db first.2; faults := fs |} in
  let alone := cleanupExpiredTokensAndSessions now' {| db := db w; faults := fs |} in
  db again.2 = db alone.2 /\
  (exists stats, again.1 = Returned stats).
Proof.
  intros Hle Hfs. cbv zeta.
  set (w1 := {| db := db (cleanupExpiredTokensAndSessions now w).2; faults := fs |}).
  set (w0 := {| db := db w; faults := fs |}).
  destruct (sweep_calm now' w1 Hfs) as (st1 & Hr1 & Ht1 & Hs1).
  destruct (sweep_calm now' w0 Hfs) as (st0 & _ & Ht0 & Hs0).
  destruct (sweep_stops_between_passes now' w1) as [Hu1 _].
  destruct (sweep_stops_between_passes now' w0) as [Hu0 _].
  destruct (sweep_stops_between_passes now w) as [Hu Hcases].
  cbv zeta in Hu1, Hu0. split; [| eauto].
  fold (pass1 now' (oneTimeTokens (db w1))) in Ht1.
  fold (pass13 now' (oneTimeTokens (db w1))) in Ht1.
  fold (pass2 now' (sessions (db w1))) in Hs1.
  fold (pass1 now' (oneTimeTokens (db w0))) in Ht0.
  fold (pass13 now' (oneTimeTokens (db w0))) in Ht0.
  fold (pass2 now' (sessions (db w0))) in Hs0.
  apply db_ext; [rewrite Hu1, Hu0; exact Hu | rewrite Ht1, Ht0 | rewrite Hs1, Hs0];
    cbn [db w1 w0].
  - apply map_eq. intros k. apply option_eq. intros r.
    rewrite !pass13_lookup.
    destruct Hcases as [[-> _] | [[-> _] | [[-> _] | [-> _]]]];
      rewrite ?pass1_lookup, ?pass13_lookup; try tauto.
    + split; [tauto |]. intros (Hr & He & Ho). repeat split; auto. lia.
    + split; [tauto |]. intros (Hr & He & Ho). repeat split; auto. lia.
    + split; [tauto |]. intros (Hr & He & Ho). repeat split; auto; [lia |].
      intros u Hu' Hlt. specialize (Ho u Hu'). lia.
  - apply map_eq. intros k. apply option_eq. intros x.
    rewrite !pass2_lookup.
    destruct Hcases as [[_ ->] | [[_ ->] | [[_ ->] | [_ ->]]]];
      rewrite ?pass2_lookup; try tauto.
    + split; [tauto |]. intros (Hr & He). repeat split; auto. lia.
    + split; [tauto |]. intros (Hr & He). repeat split; auto. lia.
Qed.

Section WithHash.
Context `{Sha256}.

(** X13.  A sweep at [now], whatever its faults, does not take away a
    token that is still good: an unused token whose [expiresAt] is after
    [t >= now] is redeemed at [t] after the sweep as it would have been before.
    The two expiry tests differ at the boundary: an unused token with
    [expiresAt = now] is kept by the sweep although a redeem at [now] already
    reports it [EXPIRED]. *)
Theorem sweep_keeps_redeemable (now t : Z) (token : JsString) (w : World)
    (r : TokenRow.t) (fs : list bool) :
  Codec.validateTokenFormat token = true ->
  oneTimeTokens (db w) !! hashToken token = Some r ->
  TokenRow.used r = false ->
  TokenRow.usedAt r = None ->
  fault_free fs ->
  let swept := {| db := db (cleanupExpiredTokensAndSessions now w).2; faults := fs |} in
  (now <= t -> t < TokenRow.expiresAt r ->
   (verifyAndConsumeToken t token swept).1 = Returned (succeeded (TokenRow.userId r))) /\
  (TokenRow.expiresAt r = now ->
   oneTimeTokens (db swept) !! hashToken token = Some r /\
   (verifyAndConsumeToken now token swept).1 = Returned (failed EXPIRED "Token has expired")).
Proof.
  intros Hvalid Hrow Hused Hat Hfs. cbv zeta.
  assert (Hkept : now <= TokenRow.expiresAt r ->
            oneTimeTokens (db (cleanupExpiredTokensAndSessions now w).2) !! hashToken token
            = Some r).
  { intros Hle. destruct (sweep_stops_between_passes now w) as [_ Hcases].
    destruct Hcases as [[-> _] | [[-> _] | [[-> _] | [-> _]]]];
      rewrite ?pass1_lookup, ?pass13_lookup; auto; repeat split; auto; try lia.
    intros u Hu'. congruence. }
  split.
  - intros Hnow Hlt.
    rewrite verifyAndConsumeToken_calm by assumption. cbn [db].
    rewrite Hkept by lia. unfold redeemable. rewrite Hused.
    rewrite bool_decide_eq_true_2 by reflexivity.
    apply Z.ltb_lt in Hlt. now rewrite Hlt.
  - intros Heq. split; [cbn [db]; apply Hkept; lia |].
    rewrite verifyAndConsumeToken_calm by assumption. cbn [db].
    rewrite Hkept by lia. unfold redeemable. rewrite Hused.
    rewrite bool_decide_eq_true_2 by reflexivity.
    rewrite Heq, Z.ltb_irrefl. reflexivity.
Qed.

Lemma consume_consistent (now : Z) (r : TokenRow.t) : row_consistent (consume now r).
Proof. unfold row_consistent. cbn. split; [discriminate | reflexivity]. Qed.

(** X14.  If in every token row [used] is set exactly when [usedAt] is, the
    same holds after [storeToken], [verifyAndConsumeToken],
    [checkTokenValidity], [getTokenStats] and the sweep, whatever the store's
    faults: no operation leaves a row half-written. *)
Theorem store_stays_consistent (w : World) :
  store_consistent (db w) ->
  (forall dbNow tokenHash userId expiresAt,
      store_consistent (db (storeToken dbNow tokenHash userId expiresAt w).2)) /\
  (forall now token, store_consistent (db (verifyAndConsumeToken now token w).2)) /\
  (forall now token, store_consistent (db (checkTokenValidity now token w).2)) /\
  (forall dbNow userId, store_consistent (db (getTokenStats dbNow userId w).2)) /\
  (forall now, store_consistent (db (cleanupExpiredTokensAndSessions now w).2)).
Proof.
  intros Hok. split; [| split; [| split; [| split]]].
  - intros dbNow h uid e.
    destruct (storeToken_cases dbNow h uid e w) as [(w' & -> & Hdb) | (_ & Hnone & _ & ->)];
      cbn [snd]; [now rewrite Hdb |].
    intros k r. cbn [db oneTimeTokens with_tokens].
    destruct (decide (k = h)) as [-> | Hk].
    + rewrite lookup_insert_eq. intros [= <-]. unfold row_consistent. cbn.
      split; [discriminate | congruence].
    + rewrite lookup_insert_ne by auto. apply Hok.
  - intros now token.
    destruct (LifecycleMore.verifyAndConsumeToken_effect now token w)
      as [[-> _] | (r0 & _ & _ & _ & _ & ->)]; [exact Hok |].
    intros k r. cbn [oneTimeTokens with_tokens].
    destruct (decide (k = hashToken token)) as [-> | Hk].
    + rewrite lookup_insert_eq. intros [= <-]. apply consume_consistent.
    + rewrite lookup_insert_ne by auto. apply Hok.
  - intros now token. now rewrite LifecycleTheorems.checkTokenValidity_reads.
  - intros dbNow uid. unfold getTokenStats, try_catch, bind.
    destruct (query_cases (select_stats dbNow uid) w) as [(fs & _ & ->) | (_ & ->)];
      exact Hok.
  - intros now. destruct (sweep_stops_between_passes now w) as [_ Hcases].
    intros k r Hr. apply (Hok k).
    destruct Hcases as [[Ht _] | [[Ht _] | [[Ht _] | [Ht _]]]]; rewrite Ht in Hr;
      rewrite ?pass1_lookup, ?pass13_lookup in Hr; tauto.
Qed.

End WithHash.

Lemma later_sweep_completes_witness :
  db (cleanupExpiredTokensAndSessions 3000000000
        {| db := db (cleanupExpiredTokensAndSessions 3000000000 Demo.stale_world).2;
           faults := [] |}).2 =
  db (cleanupExpiredTokensAndSessions 3000000000
        {| db := db Demo.stale_world; faults := [] |}).2.
Proof.
  apply (later_sweep_completes 3000000000 3000000000 Demo.stale_world []).
  - lia.
  - constructor.
Defined.

Lemma sweep_keeps_redeemable_witness :
  (verifyAndConsumeToken (H := Demo.plain_digest) 4000 Demo.token
     {| db := db (cleanupExpiredTokensAndSessions 3000 Demo.world1).2; faults := [] |}).1
  = Returned (succeeded 7).
Proof.
  apply (sweep_keeps_redeemable (H := Demo.plain_digest) 3000 4000 Demo.token Demo.world1
           (fresh_row 1000 7 5000) []).
  - reflexivity.
  - vm_compute. reflexivity.
  - reflexivity.
  - reflexivity.
  - constructor.
  - lia.
  - cbn. lia.
Defined.

Lemma store_stays_consistent_witness :
  store_consistent
    (db (storeToken 1000 (hashToken (H := Demo.plain_digest) Demo.token) 7 5000 Demo.world0).2).
Proof.
  apply (store_stays_consistent (H := Demo.plain_digest) Demo.world0).
  intros k r Hr. cbn in Hr. rewrite lookup_empty in Hr. discriminate Hr.
Defined.

End SweepMore.


(* ===================================================================== *)
(** * More on concurrent redemption *)
(* ===================================================================== *)

Module RaceMore.
Import LifecycleFacts Concurrent RaceCourse.

Lemma work_insert (cs : list Call) (i : nat) (c c' : Call) :
  cs !! i = Some c ->
  (work (<[ i := c' ]> cs) + rank c = work cs + rank c')%nat.
Proof.
  unfold work. revert i.
  induction cs as [| x cs IH]; intros [| i] Hi; try discriminate Hi.
  - injection Hi as ->. cbn. lia.
  - change ((x :: cs) !! S i) with (cs !! i) in Hi. specialize (IH i Hi).
    change (<[ S i := c' ]> (x :: cs)) with (x :: <[ i := c' ]> cs).
    cbn [fmap list_fmap sum_list sum_list_with] in *. lia.
Qed.

Lemma work_replicate_pending (n : nat) : work (replicate n Pending) = (3 * n)%nat.
Proof. unfold work. induction n as [| n IH]; cbn in *; lia. Qed.

Section Race.
Context `{Sha256}.
Variable token : JsString.

(** One step of one call: it writes nothing and does not report success,
    or it is the update that consumes the row and reports success. *)
Lemma advance_effect (fault : bool) (clk : Z) (c c' : Call) (d d' : Db) :
  advance token fault clk c d = Some (c', d') ->
  (rank c' < rank c)%nat /\ won c = false /\
  (forall t0, t0 <= clk -> made_since t0 c -> made_since t0 c') /\
  ((d' = d /\ won c' = false) \/
   (exists now r, c = Updating now /\
      oneTimeTokens d !! hashToken token = Some r /\ redeemable now r = true /\
      d' = with_tokens d (<[ hashToken token := consume now r ]> (oneTimeTokens d)) /\
      c' = Settled (succeeded (TokenRow.userId r)))).
Proof.
  destruct c as [| now | now | res]; cbn [advance]; [| | | discriminate].
  - destruct (Codec.validateTokenFormat token); cbn [negb];
      intros [= <- <-]; cbn; repeat split; auto; lia.
  - destruct fault; [intros [= <- <-]; cbn; repeat split; auto; lia |].
    rewrite update_consume_lookup.
    destruct (oneTimeTokens d !! hashToken token) as [r |] eqn:Hrow;
      [destruct (redeemable now r) eqn:Hred |]; intros [= <- <-]; cbn [rank won made_since].
    + repeat split; auto. right. exists now, r. repeat split; auto.
    + repeat split; auto.
    + repeat split; auto.
  - destruct fault; [intros [= <- <-]; cbn; repeat split; auto |].
    rewrite select_by_hash_lookup.
    destruct (oneTimeTokens d !! hashToken token) as [r |];
      [destruct (TokenRow.used r); [| destruct (TokenRow.expiresAt r <=? now)] |];
      intros [= <- <-]; cbn; repeat split; auto.
Qed.

Variable t0 : Z.
Variable d0 : Db.
Variable n : nat.

Local Abbreviation race_course := (RaceCourse.race_course token t0 d0).

Lemma race_course_step (s s' : System) :
  race_course s -> step token s s' -> race_course s'.
Proof.
  intros (Hclk & Hmade & Hhist & Hwin) Hstep.
  destruct Hstep as [s dt Hdt | s i fault c c' d' Hi Hadv].
  - split; [cbn; lia |]. split; [exact Hmade |]. split; [exact Hhist | exact Hwin].
  - destruct (advance_effect _ _ _ _ _ _ Hadv) as (_ & Hwc & Htime & Heff).
    pose proof (RaceTheorems.successes_insert (calls s) i c c' Hi) as Hcount.
    rewrite Hwc in Hcount. cbn [Nat.b2n] in Hcount.
    assert (Hmade' : Forall (made_since t0) (<[ i := c' ]> (calls s))).
    { apply Forall_insert; [exact Hmade |].
      apply Htime; [exact Hclk |]. eapply Forall_lookup_1; eassumption. }
    destruct Heff as [[-> Hwc'] | (now & r & -> & Hrow & Hred & -> & ->)].
    + rewrite Hwc' in Hcount. cbn [Nat.b2n] in Hcount.
      split; [exact Hclk |]. split; [exact Hmade' |]. split; [exact Hhist |].
      cbn [calls store].
      destruct Hwin as [H0 | (H1 & Hrow & Hinit)]; [left | right; split; [| auto]]; lia.
    + cbn [won succeeded Result.success Nat.b2n] in Hcount.
      assert (Hu : TokenRow.used r = false /\ now < TokenRow.expiresAt r).
      { unfold redeemable in Hred. apply andb_prop in Hred as [Hu Hlt].
        apply bool_decide_eq_true in Hu. apply Z.ltb_lt in Hlt. auto. }
      destruct Hu as [Hu Hlt].
      pose proof (Forall_lookup_1 _ _ _ _ Hmade Hi) as Hnow. cbn in Hnow.
      split; [exact Hclk |]. split; [exact Hmade' |]. split.
      { eapply LifecycleMore.redeemed_only_trans; [exact Hhist |].
        now apply LifecycleMore.redeemed_only_consume. }
      cbn [calls store oneTimeTokens with_tokens].
      destruct Hwin as [H0 | (_ & (r1 & Hr1 & Hu1) & _)]; [| congruence].
      right. split; [lia |]. split.
      { exists (consume now r). rewrite lookup_insert_eq. auto. }
      destruct Hhist as (_ & _ & Hkeys). specialize (Hkeys (hashToken token)).
      rewrite Hrow in Hkeys.
      destruct (oneTimeTokens d0 !! hashToken token) as [r0 |]; [| contradiction].
      exists r0. split; [reflexivity |].
      destruct Hkeys as [-> | (_ & Hu0 & now1 & ->)]; [split; [exact Hu | lia] |].
      discriminate Hu.
Qed.

Lemma race_course_reachable (s : System) :
  rtc (step token) {| clock := t0; store := d0; calls := replicate n Pending |} s ->
  race_course s.
Proof.
  intros Hrun. eapply (rtc_ind_r race_course); [| | exact Hrun].
  - split; [cbn; lia |]. split; [now apply Forall_replicate |].
    split; [apply LifecycleMore.redeemed_only_refl |].
    left. apply RaceTheorems.successes_replicate_pending.
  - intros y z _ Hstep Hy. eapply race_course_step; eassumption.
Qed.

(** X15.  On any store at all, a race of calls on one token never has more
    than one call that reports success; and a call reports success only if, when
    the race began, the token's digest had a row that was unused and not yet
    expired.  If the row is missing, already used, or expired at the start, no
    call succeeds. *)
Theorem race_never_two_winners (s : System) :
  rtc (step token) {| clock := t0; store := d0; calls := replicate n Pending |} s ->
  (successes (calls s) <= 1)%nat /\
  (successes (calls s) = 1%nat ->
   exists r0, oneTimeTokens d0 !! hashToken token = Some r0 /\
              TokenRow.used r0 = false /\ t0 < TokenRow.expiresAt r0).
Proof.
  intros Hrun.
  destruct (race_course_reachable s Hrun) as (_ & _ & _ & [H0 | (H1 & _ & Hinit)]).
  - split; [lia |]. intros H1. rewrite H0 in H1. discriminate H1.
  - split; [lia | auto].
Qed.

(** X16.  All along a race the clock does not go back, users and sessions
    are untouched, no token key appears or disappears, every row keeps its
    [userId], [createdAt] and [expiresAt], a row that is used stays exactly as
    it is, and rows under other keys than the token's digest do not change. *)
Theorem race_keeps_history (s : System) :
  rtc (step token) {| clock := t0; store := d0; calls := replicate n Pending |} s ->
  t0 <= clock s /\
  users (store s) = users d0 /\ sessions (store s) = sessions d0 /\
  (forall k, oneTimeTokens d0 !! k = None -> oneTimeTokens (store s) !! k = None) /\
  (forall k r, oneTimeTokens d0 !! k = Some r ->
     exists r', oneTimeTokens (store s) !! k = Some r' /\
       TokenRow.userId r' = TokenRow.userId r /\
       TokenRow.createdAt r' = TokenRow.createdAt r /\
       TokenRow.expiresAt r' = TokenRow.expiresAt r /\
       (TokenRow.used r = true -> r' = r) /\
       (k <> hashToken token -> r' = r)).
Proof.
  intros Hrun.
  destruct (race_course_reachable s Hrun) as (Hclk & _ & (Hu & Hs & Hkeys) & _).
  split; [exact Hclk |]. split; [exact Hu |]. split; [exact Hs |]. split.
  - intros k Hk. specialize (Hkeys k). rewrite Hk in Hkeys.
    now destruct (oneTimeTokens (store s) !! k).
  - intros k r Hr. specialize (Hkeys k). rewrite Hr in Hkeys.
    destruct (oneTimeTokens (store s) !! k) as [r' |]; [| contradiction].
    exists r'. split; [reflexivity |].
    destruct Hkeys as [-> | (-> & Hu0 & now & ->)]; cbn; repeat split; congruence.
Qed.

(** X17.  A call never waits for another: as long as it has not settled it
    can take its next step, whether or not the round trip fails.  And it takes
    at most three steps, so a schedule of a race of [n] calls has at most
    [3 * n] call steps. *)
Theorem race_ends (evs : list Event) (s : System) :
  (forall i c fault, calls s !! i = Some c -> settled c = false ->
                     exists s', fire token (Advance i fault) s = Some s') /\
  (run token evs {| clock := t0; store := d0; calls := replicate n Pending |} = Some s ->
   (call_steps evs + work (calls s) <= 3 * n)%nat).
Proof.
  split.
  - intros i c fault Hi Hset. cbn [fire]. rewrite Hi.
    destruct c as [| now | now | res]; [| | | discriminate Hset]; cbn [advance].
    + destruct (negb _); eauto.
    + destruct fault; [eauto |].
      destruct (update_consume _ _ _) as [[[| ? ?] | ?] ?]; eauto.
    + destruct fault; [eauto |].
      destruct (select_by_hash _ _) as [[[| r ?] | ?] ?]; eauto.
      destruct (TokenRow.used r); [| destruct (_ <=? _)]; eauto.
  - rewrite <- (work_replicate_pending n).
    change (replicate n Pending)
      with (calls {| clock := t0; store := d0; calls := replicate n Pending |}) at 2.
    generalize {| clock := t0; store := d0; calls := replicate n Pending |}.
    induction evs as [| ev evs IH]; intros s0; cbn [run].
    + intros [= <-]. cbn. lia.
    + destruct (fire token ev s0) as [s1 |] eqn:Hfire; [| discriminate].
      intros Hrun. specialize (IH s1 Hrun).
      destruct ev as [dt | i fault]; cbn [fire] in Hfire.
      * destruct (0 <=? dt); [| discriminate]. injection Hfire as <-.
        cbn [calls] in IH. unfold call_steps in *. cbn [List.filter]. exact IH.
      * destruct (calls s0 !! i) as [c |] eqn:Hi; [| discriminate].
        destruct (advance token fault (clock s0) c (store s0)) as [[c' d'] |] eqn:Hadv;
          [| discriminate].
        injection Hfire as <-. cbn [calls] in IH.
        destruct (advance_effect _ _ _ _ _ _ Hadv) as (Hrank & _).
        pose proof (work_insert (calls s0) i c c' Hi).
        unfold call_steps in *. cbn [List.filter length]. lia.
Qed.

End Race.

Lemma race_never_two_winners_witness :
  (successes (calls Demo.race_end) <= 1)%nat.
Proof.
  apply (race_never_two_winners (H := Demo.plain_digest) Demo.token 2000
           (db Demo.world1) 2 Demo.race_end).
  eapply (RaceTheorems.run_sound (H := Demo.plain_digest) Demo.token Demo.race_schedule).
  vm_compute. reflexivity.
Defined.

Lemma race_keeps_history_witness :
  2000 <= clock Demo.race_end /\
  users (store Demo.race_end) = users (db Demo.world1).
Proof.
  destruct (race_keeps_history (H := Demo.plain_digest) Demo.token 2000
              (db Demo.world1) 2 Demo.race_end) as (Hclk & Hu & _).
  - eapply (RaceTheorems.run_sound (H := Demo.plain_digest) Demo.token Demo.race_schedule).
    vm_compute. reflexivity.
  - split; [exact Hclk | exact Hu].
Defined.

End RaceMore.
